(** * epi-clock-prototype: data collection and probe reconciliation

    A shallow embedding of the GEO collector
    (src/epi_clock/collectors/geo_collector.py), of the CpG overlap analysis
    (src/epi_clock/collectors/meta_analysis.py) and of the summary writer
    (src/epi_clock/main.py), with the properties the specification states
    about them.

    Conventions of the embedding:
    - a Python [set] is a [gset]; [list(s)] is [elements s], an order the
      program cannot rely on;
    - a Python [dict] is a [gmap] when only lookups matter and an association
      list when its insertion order is observed;
    - a Python exception is the [Raise] case of [result];
    - the file system, the remote repository and the outcome of a cache write
      are explicit arguments of [fetch_dataset];
    - floating point numbers are kept behind the interface [PyFloat]. *)

From stdpp Require Import base option list gmap sets strings pretty.
From Stdlib Require Import ZArith QArith Qround Ascii.

Open Scope string_scope.
Open Scope list_scope.
Open Scope nat_scope.
Open Scope stdpp_scope.

(** ** Python exceptions and results *)

Inductive exn : Type :=
  | KeyError
  | IndexError
  | ValueError
  | ZeroDivisionError
  | IOError.

Inductive result (A : Type) : Type :=
  | Ok (a : A)
  | Raise (e : exn).
Arguments Ok {A} a.
Arguments Raise {A} e.

#[global] Instance result_ret : MRet result := λ A a, Ok a.
#[global] Instance result_bind : MBind result := λ A B f r,
  match r with
  | Ok a => f a
  | Raise e => Raise e
  end.

#[global] Instance exn_eq_dec : EqDecision exn.
Proof. solve_decision. Defined.

(** [for i, x in enumerate(xs)] with a body that may raise: the results of
    the iterations in order, or the first exception. *)
Fixpoint for_enumerate {A B : Type} (f : nat → A → result B) (i : nat)
    (xs : list A) : result (list B) :=
  match xs with
  | [] => Ok []
  | x :: xs' =>
      y ← f i x;
      ys ← for_enumerate f (S i) xs';
      Ok (y :: ys)
  end.

(** ** Scalars, labels and cells

    The values pandas keeps in an index and in the cells of a table.
    [SFloat m e] is the float read from the decimal literal [m]e[e];
    [SNaN] is the missing value.  Scalars are compared structurally. *)

Inductive scalar : Type :=
  | SInt (n : Z)
  | SStr (s : string)
  | SFloat (m e : Z)
  | SNaN.

#[global] Instance scalar_eq_dec : EqDecision scalar.
Proof. solve_decision. Defined.

Definition scalar_to_sum (x : scalar) : Z + string + (Z * Z) + unit :=
  match x with
  | SInt n => inl (inl (inl n))
  | SStr s => inl (inl (inr s))
  | SFloat m e => inl (inr (m, e))
  | SNaN => inr tt
  end.

Definition scalar_of_sum (x : Z + string + (Z * Z) + unit) : scalar :=
  match x with
  | inl (inl (inl n)) => SInt n
  | inl (inl (inr s)) => SStr s
  | inl (inr (m, e)) => SFloat m e
  | inr _ => SNaN
  end.

#[global] Instance scalar_countable : Countable scalar.
Proof.
  refine (inj_countable' scalar_to_sum scalar_of_sum _).
  by intros [].
Defined.

(** [pd.isnull] on a cell. *)
Definition isnull (x : scalar) : bool :=
  match x with
  | SNaN => true
  | _ => false
  end.

(** ** pandas tables

    A [DataFrame] has row labels and named columns, each column as long as
    the index.  Column names are taken to be distinct, as they are in the
    tables GEOparse reads.  A [Series] is a column with its labels. *)

Record DataFrame : Type := {
  index : list scalar;
  columns : list (string * list scalar)
}.

Abbreviation Series := (list (scalar * scalar)).

(** [name in df.columns] *)
Definition has_column (name : string) (m : DataFrame) : bool :=
  bool_decide (name ∈ (columns m).*1).

(** [df.set_index(df.columns[0])]: the first column becomes the index and
    leaves the columns.  [df.columns[0]] raises on a table without
    columns. *)
Definition set_index_first (m : DataFrame) : result DataFrame :=
  match columns m with
  | [] => Raise IndexError
  | (_, ids) :: rest => Ok {| index := ids; columns := rest |}
  end.

Fixpoint assoc {A : Type} (name : string) (l : list (string * A)) : option A :=
  match l with
  | [] => None
  | (k, v) :: l' => if decide (k = name) then Some v else assoc name l'
  end.

(** [df[name]] *)
Definition getitem (name : string) (m : DataFrame) : result Series :=
  match assoc name (columns m) with
  | None => Raise KeyError
  | Some vals => Ok (zip (index m) vals)
  end.

(** [df.iloc[:, 0]] *)
Definition iloc_first (m : DataFrame) : result Series :=
  match columns m with
  | [] => Raise IndexError
  | (_, vals) :: _ => Ok (zip (index m) vals)
  end.

(** [s.loc[labels]]: for each requested label, every row of [s] carrying it,
    in the order of the request; a label that [s] does not carry is a
    [KeyError] (pandas 1.0 and later). *)
Definition rows_of (s : Series) (l : scalar) : Series :=
  filter (λ r, r.1 = l) s.

Fixpoint loc (s : Series) (labels : list scalar) : result Series :=
  match labels with
  | [] => Ok []
  | l :: labels' =>
      match rows_of s l with
      | [] => Raise KeyError
      | rows =>
          rest ← loc s labels';
          Ok (rows ++ rest)
      end
  end.

(** [pd.DataFrame(d)] for a dict [d] of Series, in insertion order.  When
    all the Series have the same index, that index is the frame's and no
    realignment happens.  Otherwise pandas reindexes every Series on the
    union of the indexes, which raises [ValueError] on a Series with
    repeated labels; the combiner only builds Series selected by one and the
    same duplicate-free label list, and [loc_index_differs] below shows that
    such Series differ only when one repeats a label. *)
Definition frame_of_series (d : list (string * Series)) : result DataFrame :=
  match d with
  | [] => Ok {| index := []; columns := [] |}
  | (_, s0) :: _ =>
      if bool_decide (Forall (λ c, c.2.*1 = s0.*1) d)
      then Ok {| index := s0.*1; columns := (λ c, (c.1, c.2.*2)) <$> d |}
      else Raise ValueError
  end.

(** ** GEOCollector._combine_methylation_data *)

(** The first loop: [common_cpgs] starts as [None] and is intersected with
    [set(matrix.index)] for each table.  ([hasattr(matrix, 'index')] holds
    of every DataFrame.) *)
Definition cpg_sites (m : DataFrame) : gset scalar :=
  list_to_set (index m).

Definition common_step (common : option (gset scalar)) (m : DataFrame)
    : option (gset scalar) :=
  match common with
  | None => Some (cpg_sites m)
  | Some c => Some (c ∩ cpg_sites m)
  end.

Definition common_cpgs (matrices : list DataFrame) : option (gset scalar) :=
  foldl common_step None matrices.

(** The branch that extracts the beta values of one table. *)
Inductive value_branch : Type :=
  | ByVALUE
  | ByBetaValue
  | BySecondColumn.

Definition branch_of (m : DataFrame) : value_branch :=
  if has_column "VALUE" m then ByVALUE
  else if has_column "Beta_value" m then ByBetaValue
  else BySecondColumn.

Definition extract_values (m : DataFrame) : result Series :=
  match branch_of m with
  | ByVALUE => m' ← set_index_first m; getitem "VALUE" m'
  | ByBetaValue => m' ← set_index_first m; getitem "Beta_value" m'
  | BySecondColumn => m' ← set_index_first m; iloc_first m'
  end.

Definition sample_name (i : nat) : string := "sample_" +:+ pretty i.

Definition combine_column (common : gset scalar) (i : nat) (m : DataFrame)
    : result (string * Series) :=
  values ← extract_values m;
  common_values ← loc values (elements common);
  Ok (sample_name i, common_values).

Definition combine_methylation_data (matrices : list DataFrame)
    : result (option DataFrame) :=
  match matrices with
  | [] => Ok None
  | _ =>
      match common_cpgs matrices with
      | None => Ok None
      | Some common =>
          if decide (common = ∅) then Ok None
          else
            combined_data ← for_enumerate (combine_column common) 0 matrices;
            df ← frame_of_series combined_data;
            Ok (Some df)
      end
  end.

(** ** GEOCollector.fetch_dataset *)

Record sample_info : Type := {
  sample_id : string;
  sample_title : string;
  source : string;
  supplementary_files : list string
}.

(** The dictionary [dataset_info].  ['sample_metadata'] is the frame built
    from the rows of ['samples'] and is kept as those rows.  The
    ['characteristics'] of a sample are left out: [_parse_characteristics]
    only splits metadata strings, and neither the cache nor the combiner
    reads its result. *)
Record dataset_info : Type := {
  accession : string;
  title : string;
  summary : string;
  organism : string;
  platform : string;
  samples : list sample_info;
  methylation_data : option DataFrame;
  sample_metadata : list sample_info
}.

(** What GEOparse hands over: a series with its metadata and its samples in
    order, each sample with metadata and possibly a table. *)
Record GSM : Type := {
  gsm_metadata : gmap string (list string);
  table : option DataFrame
}.

Record GSE : Type := {
  metadata : gmap string (list string);
  gsms : list (string * GSM)
}.

(** [md.get(key, [default])[0]] *)
Definition metadata_first (md : gmap string (list string)) (key default : string)
    : result string :=
  match md !! key with
  | None => Ok default
  | Some [] => Raise IndexError
  | Some (x :: _) => Ok x
  end.

(** [md.get('supplementary_file', [])] *)
Definition metadata_list (md : gmap string (list string)) (key : string)
    : list string :=
  default [] (md !! key).

(** A loop whose body updates a state and may raise. *)
Fixpoint for_each {A S : Type} (body : S → A → result S) (s : S)
    (xs : list A) : result S :=
  match xs with
  | [] => Ok s
  | x :: xs' => s' ← body s x; for_each body s' xs'
  end.

(** The guard on a sample's table: only a table with a column named
    ["VALUE"] or ["Beta_value"] is kept for the combining step. *)
Definition has_value_column (t : DataFrame) : bool :=
  has_column "VALUE" t || has_column "Beta_value" t.

(** One iteration of [for gsm_name, gsm in gse.gsms.items()], on the pair
    [(sample_data, methylation_matrices)]. *)
Definition sample_step (st : list sample_info * list DataFrame)
    (g : string * GSM) : result (list sample_info * list DataFrame) :=
  t ← metadata_first (gsm_metadata g.2) "title" "";
  s ← metadata_first (gsm_metadata g.2) "source_name_ch1" "";
  let info := {| sample_id := g.1; sample_title := t; source := s;
                 supplementary_files :=
                   metadata_list (gsm_metadata g.2) "supplementary_file" |} in
  let matrices :=
    match table g.2 with
    | Some t => if has_value_column t then st.2 ++ [t] else st.2
    | None => st.2
    end in
  Ok (st.1 ++ [info], matrices).

(** The table of a sample, if the guard lets it through, and the tables that
    reach the combiner. *)
Definition kept_table (g : string * GSM) : option DataFrame :=
  match table g.2 with
  | Some t => if has_value_column t then Some t else None
  | None => None
  end.

Definition methylation_matrices (gse : GSE) : list DataFrame :=
  omap kept_table (gsms gse).

(** The body of the outer [try] up to the cache write. *)
Definition build_dataset (acc : string) (gse : GSE) : result dataset_info :=
  ti ← metadata_first (metadata gse) "title" "Unknown";
  su ← metadata_first (metadata gse) "summary" "";
  og ← metadata_first (metadata gse) "taxon" "Unknown";
  pl ← metadata_first (metadata gse) "platform_id" "Unknown";
  st ← for_each sample_step ([], []) (gsms gse);
  md ← match st.2 with
       | [] => Ok None
       | matrices => combine_methylation_data matrices
       end;
  Ok {| accession := acc; title := ti; summary := su; organism := og;
        platform := pl; samples := st.1; methylation_data := md;
        sample_metadata := st.1 |}.

(** A file of the cache directory: a pickle that loads back to the record it
    was dumped from, or bytes on which [pickle.load] raises. *)
Inductive file : Type :=
  | Pickled (d : dataset_info)
  | Corrupt.

(** How [open(cache_path, 'wb')] followed by [pickle.dump] ends: both
    succeed; [open] raises and the path is untouched; or [open] has created
    or truncated the file and [pickle.dump] raises part-way, leaving bytes
    that do not load. *)
Inductive write_outcome : Type :=
  | WriteOk
  | OpenFails
  | DumpFails.

(** The world of one call: the answer of [GEOparse.get_GEO] and the fate of
    the cache write. *)
Record env : Type := {
  get_GEO : string → result GSE;
  write : write_outcome
}.

(** [os.path.join(a, b)] for POSIX paths. *)
Definition path_join (a b : string) : string :=
  if String.prefix "/" b then b
  else if decide (a = "") then b
  else if decide (String.get (String.length a - 1) a = Some "/"%char) then a +:+ b
  else a +:+ "/" +:+ b.

Definition cache_path (cache_dir acc : string) : string :=
  path_join cache_dir (acc +:+ ".pkl").

(** The write goes straight to [cache_path]. *)
Definition write_cache (w : write_outcome) (path : string) (d : dataset_info)
    (files : gmap string file) : gmap string file :=
  match w with
  | WriteOk => <[path := Pickled d]> files
  | OpenFails => files
  | DumpFails => <[path := Corrupt]> files
  end.

Record fetch_outcome : Type := {
  returned : option dataset_info;
  disk : gmap string file;
  remote_requests : nat
}.

Definition fetch_dataset (cache_dir : string) (e : env)
    (files : gmap string file) (acc : string) : fetch_outcome :=
  let path := cache_path cache_dir acc in
  match files !! path with
  | Some (Pickled d) =>
      {| returned := Some d; disk := files; remote_requests := 0 |}
  | _ =>
      match gse ← get_GEO e acc; build_dataset acc gse with
      | Ok d =>
          {| returned := Some d;
             disk := write_cache (write e) path d files;
             remote_requests := 1 |}
      | Raise _ =>
          {| returned := None; disk := files; remote_requests := 1 |}
      end
  end.


(** ** main.collect_geo_data: the summary document

    A character of [string] stands for one code point of a Python [str]. *)

Record summary_entry : Type := {
  j_accession : string;
  j_title : string;
  j_summary : string;
  j_organism : string;
  j_platform : string;
  j_n_samples : nat;
  j_has_methylation_data : bool
}.

(** [s[:n]] *)
Definition str_prefix (n : nat) (s : string) : string := String.substring 0 n s.

Definition summary_field (s : string) : string :=
  if 500 <? String.length s then str_prefix 500 s +:+ "..." else s.

Definition summary_of (data : dataset_info) : summary_entry :=
  {| j_accession := accession data;
     j_title := title data;
     j_summary := summary_field (summary data);
     j_organism := organism data;
     j_platform := platform data;
     j_n_samples := length (samples data);
     j_has_methylation_data := bool_decide (methylation_data data ≠ None) |}.

Definition json_datasets (datasets : list (string * dataset_info))
    : list (string * summary_entry) :=
  (λ d, (d.1, summary_of d.2)) <$> datasets.

(** ** Floating point

    The overlap analysis divides two set sizes and rounds the quotient with
    [round(x, 3)].  What the analysis needs of Python's floats is gathered in
    an interface; the three laws hold of IEEE 754 doubles under Python's
    [round]. *)

Class PyFloat : Type := {
  pyfloat : Type;
  f_one : pyfloat;                      (* the literal 1.0 *)
  f_zero : pyfloat;                     (* 0.0 *)
  truediv : nat → nat → pyfloat;        (* a / b for ints, b nonzero *)
  round3 : pyfloat → pyfloat;           (* round(x, 3) *)
  round3_one : round3 f_one = f_one;
  round3_zero : round3 f_zero = f_zero;
  truediv_zero : ∀ n, 0 < n → truediv 0 n = f_zero
}.

(** An instance in exact arithmetic: reduced fractions, rounded half to even
    at the third decimal. *)
Definition exact_truediv (a b : nat) : Q :=
  Qred (Z.of_nat a # Pos.of_nat b).

Definition exact_round3 (x : Q) : Q :=
  let y := (x * (1000 # 1))%Q in
  let f := Qfloor y in
  let n := match ((y - inject_Z f) ?= (1 # 2))%Q with
           | Lt => f
           | Gt => (f + 1)%Z
           | Eq => if Z.even f then f else (f + 1)%Z
           end in
  Qred (n # 1000).

#[global] Instance exact_float : PyFloat := {|
  pyfloat := Q;
  f_one := (1 # 1)%Q;
  f_zero := (0 # 1)%Q;
  truediv := exact_truediv;
  round3 := exact_round3;
  round3_one := eq_refl;
  round3_zero := eq_refl;
  truediv_zero := λ n _, eq_refl
|}.

(** ** MetaAnalyzer: the CpG overlap analysis *)

Section reconciler.
Context {F : PyFloat}.

(** [xs[i]] *)
Definition item {A : Type} (xs : list A) (i : nat) : result A :=
  match xs !! i with
  | Some x => Ok x
  | None => Raise IndexError
  end.

(** [a / b] on ints *)
Definition int_truediv (a b : nat) : result pyfloat :=
  if decide (b = 0) then Raise ZeroDivisionError else Ok (truediv a b).

(** The body of the inner loop of [_create_overlap_matrix], up to the
    rounding. *)
Definition overlap_value (cpg_data : list (string * gset scalar)) (i j : nat)
    : result pyfloat :=
  if decide (i = j) then Ok f_one
  else
    d1 ← item cpg_data i;
    d2 ← item cpg_data j;
    int_truediv (size (d1.2 ∩ d2.2)) (size (d1.2 ∪ d2.2)).

Definition overlap_row (cpg_data : list (string * gset scalar))
    (accessions : list string) (n i : nat) : result (gmap string pyfloat) :=
  for_each (λ (row : gmap string pyfloat) j,
              overlap ← overlap_value cpg_data i j;
              acc_j ← item accessions j;
              Ok (<[acc_j := round3 overlap]> row))
           ∅ (seq 0 n).

Definition create_overlap_matrix (cpg_data : list (string * gset scalar))
    : result (gmap string (gmap string pyfloat)) :=
  let accessions := cpg_data.*1 in
  let n := length accessions in
  for_each (λ (overlap_matrix : gmap string (gmap string pyfloat)) i,
              acc_i ← item accessions i;
              row ← overlap_row cpg_data accessions n i;
              Ok (<[acc_i := row]> overlap_matrix))
           ∅ (seq 0 n).

(** [overlap_matrix[a][b]] *)
Definition entry (om : gmap string (gmap string pyfloat)) (a b : string)
    : option pyfloat :=
  row ← om !! a; row !! b.

(** [all_cpgs]: the union of all the sets. *)
Definition all_cpgs (cpg_data : list (string * gset scalar)) : gset scalar :=
  foldl (λ all d, all ∪ d.2) ∅ cpg_data.

(** [core_cpgs]: the first set intersected with each of the others. *)
Definition core_cpgs (cpg_data : list (string * gset scalar))
    : result (gset scalar) :=
  match cpg_data with
  | [] => Raise IndexError
  | d :: rest => Ok (foldl (λ core d', core ∩ d'.2) d.2 rest)
  end.

(** [others]: the sets of the entries with another accession. *)
Definition others (acc : string) (cpg_data : list (string * gset scalar))
    : gset scalar :=
  foldl (λ o d, if decide (d.1 ≠ acc) then o ∪ d.2 else o) ∅ cpg_data.

Definition dataset_specific (cpg_data : list (string * gset scalar))
    : gmap string nat :=
  foldl (λ ds d, <[d.1 := size (d.2 ∖ others d.1 cpg_data)]> ds) ∅ cpg_data.

Record overlap_report : Type := {
  total_unique_cpgs : nat;
  core_cpgs_count : nat;
  core_cpg_list : list scalar;
  dataset_specific_counts : gmap string nat;
  overlap_matrix : gmap string (gmap string pyfloat)
}.

(** The dictionary [_analyze_cpg_overlap] returns: [{}] or the five keys. *)
Inductive overlap_dict : Type :=
  | EmptyDict
  | Report (r : overlap_report).

Definition analyze_cpg_overlap (cpg_data : list (string * gset scalar))
    : result overlap_dict :=
  if length cpg_data <? 2 then Ok EmptyDict
  else
    core ← core_cpgs cpg_data;
    om ← create_overlap_matrix cpg_data;
    Ok (Report {| total_unique_cpgs := size (all_cpgs cpg_data);
                  core_cpgs_count := size core;
                  core_cpg_list := take 100 (elements core);
                  dataset_specific_counts := dataset_specific cpg_data;
                  overlap_matrix := om |}).

(** [analyze_geo_data], for the keys that count identifiers.  The float
    aggregates ['missing_rate'] and ['value_range'] of ['data_quality'] and
    the platform and organism tallies are not part of the embedding. *)
Record quality : Type := {
  n_cpg_sites : nat;
  n_samples : nat
}.

Record geo_analysis : Type := {
  total_datasets : nat;
  total_samples : nat;
  cpg_overlap : option overlap_dict;
  data_quality : gmap string quality
}.

(** [all_cpg_sites]: one pair per dataset whose ['methylation_data'] is not
    [None], in the order of the dictionary. *)
Definition all_cpg_sites (geo_datasets : list (string * dataset_info))
    : list (string * gset scalar) :=
  omap (λ d : string * dataset_info,
          match methylation_data d.2 with
          | Some data => Some (d.1, cpg_sites data)
          | None => None
          end) geo_datasets.

Definition quality_of (geo_datasets : list (string * dataset_info))
    : gmap string quality :=
  foldl (λ q (d : string * dataset_info),
           match methylation_data d.2 with
           | Some data =>
               <[d.1 := {| n_cpg_sites := size (cpg_sites data);
                           n_samples := length (columns data) |}]> q
           | None => q
           end) ∅ geo_datasets.

(** [None] stands for the [{}] returned on an empty input. *)
Definition analyze_geo_data (geo_datasets : list (string * dataset_info))
    : result (option geo_analysis) :=
  match geo_datasets with
  | [] => Ok None
  | _ =>
      ov ← match all_cpg_sites geo_datasets with
           | [] => Ok None
           | sites => r ← analyze_cpg_overlap sites; Ok (Some r)
           end;
      Ok (Some {| total_datasets := length geo_datasets;
                  total_samples :=
                    foldl (λ t (d : string * dataset_info),
                             t + length (samples d.2)) 0 geo_datasets;
                  cpg_overlap := ov;
                  data_quality := quality_of geo_datasets |})
  end.

End reconciler.

(** * More of the collector and of the analysis *)

From stdpp Require sorting.

(** Two entries, at different positions, whose identifier sets are both
    empty. *)
Definition both_empty (cpg_data : list (string * gset scalar)) : Prop :=
  ∃ i j d1 d2, i ≠ j ∧ cpg_data !! i = Some d1 ∧ cpg_data !! j = Some d2 ∧
               d1.2 = ∅ ∧ d2.2 = ∅.


Definition empty_pair (cpg_data : list (string * gset scalar)) (i j : nat)
    : Prop :=
  i ≠ j ∧ ∃ d1 d2, cpg_data !! i = Some d1 ∧ cpg_data !! j = Some d2 ∧
                   d1.2 = ∅ ∧ d2.2 = ∅.

#[global] Instance empty_pair_dec (cpg_data : list (string * gset scalar))
    (i j : nat) : Decision (empty_pair cpg_data i j).
Proof.
  unfold empty_pair.
  destruct (cpg_data !! i) as [d1|], (cpg_data !! j) as [d2|];
    [|right; intros (? & ? & ? & ? & ? & ? & ?); discriminate..].
  destruct (decide (i ≠ j ∧ d1.2 = ∅ ∧ d2.2 = ∅)) as [Hy|Hn].
  - left. destruct Hy as (? & ? & ?). split; [done|]. by exists d1, d2.
  - right. intros (? & d1' & d2' & [= <-] & [= <-] & ? & ?). by apply Hn.
Defined.


(** ** GEOCollector.collect_datasets *)

(** [d[k] = v] on a dictionary kept in insertion order: a key that is
    already there keeps its place. *)
Fixpoint dict_set {A : Type} (k : string) (v : A) (d : list (string * A))
    : list (string * A) :=
  match d with
  | [] => [(k, v)]
  | (k', v') :: d' =>
      if decide (k' = k) then (k, v) :: d' else (k', v') :: dict_set k v d'
  end.

Record collect_outcome : Type := {
  collected : result (list (string * dataset_info));
  c_disk : gmap string file;
  c_requests : nat
}.

(** The loop over [config['datasets']].  Entry number [k] of the
    configuration is fetched in the world [envs k]; an entry without
    ['accession'] raises [KeyError] when the loop reaches it.  A record is
    always a non-empty dictionary, so [if dataset:] tests for [None]. *)
Fixpoint collect_loop (cache_dir : string) (envs : nat → env) (k : nat)
    (cfgs : list (gmap string string))
    (datasets : list (string * dataset_info)) (files : gmap string file)
    (requests : nat) : collect_outcome :=
  match cfgs with
  | [] => {| collected := Ok datasets; c_disk := files; c_requests := requests |}
  | dataset_config :: cfgs' =>
      match dataset_config !! "accession" with
      | None =>
          {| collected := Raise KeyError; c_disk := files;
             c_requests := requests |}
      | Some acc =>
          let o := fetch_dataset cache_dir (envs k) files acc in
          collect_loop cache_dir envs (S k) cfgs'
            match returned o with
            | Some dataset => dict_set acc dataset datasets
            | None => datasets
            end
            (disk o) (requests + remote_requests o)
      end
  end.

Definition collect_datasets (cache_dir : string) (envs : nat → env)
    (config : gmap string (list (gmap string string)))
    (files : gmap string file) : collect_outcome :=
  match config !! "datasets" with
  | None => {| collected := Raise KeyError; c_disk := files; c_requests := 0 |}
  | Some cfgs => collect_loop cache_dir envs 0 cfgs [] files 0
  end.

(** The fetches of a configuration, each made on its own against the same
    disk, failures left out. *)
Definition separate_fetches (cache_dir : string) (envs : nat → env)
    (files : gmap string file) (k : nat) (accs : list string)
    : list (string * dataset_info) :=
  omap (λ p : nat * string,
          (λ d, (p.2, d)) <$>
            returned (fetch_dataset cache_dir (envs p.1) files p.2))
       (zip (seq k (length accs)) accs).

(** The configuration entry of an accession. *)
Definition entry_of (acc : string) : gmap string string :=
  {[ "accession" := acc ]}.

(** Every record of a dictionary of datasets is on disk, loadable, under the
    cache path of its accession. *)
Definition all_cached (cache_dir : string)
    (datasets : list (string * dataset_info)) (files : gmap string file)
    : Prop :=
  ∀ acc d, assoc acc datasets = Some d →
           files !! cache_path cache_dir acc = Some (Pickled d).

(** ** GEOCollector._parse_characteristics

    Strings are sequences of code points below 256.  The metadata of a
    sample is a dictionary from field names to lists of strings, here with
    its items in insertion order. *)

(** [c.isspace()] *)
Definition py_isspace (c : ascii) : bool :=
  let n := nat_of_ascii c in
  ((9 <=? n) && (n <=? 13)) || ((28 <=? n) && (n <=? 32))
  || (n =? 133) || (n =? 160).

(** [c.lower()] *)
Definition py_lower_char (c : ascii) : ascii :=
  let n := nat_of_ascii c in
  if ((65 <=? n) && (n <=? 90))
     || ((192 <=? n) && (n <=? 222) && negb (n =? 215))
  then ascii_of_nat (n + 32)
  else c.

(** [s.lower()] *)
Fixpoint lower (s : string) : string :=
  match s with
  | "" => ""
  | String c s' => String (py_lower_char c) (lower s')
  end.

(** [sub in s] *)
Fixpoint contains (sub s : string) : bool :=
  String.prefix sub s
  || match s with
     | "" => false
     | String _ s' => contains sub s'
     end.

(** [s.split(':', 1)] when [':' in s]: the text before the first colon and
    the text after it. *)
Fixpoint split_colon (s : string) : option (string * string) :=
  match s with
  | "" => None
  | String c s' =>
      if decide (c = ":"%char) then Some ("", s')
      else (λ p, (String c p.1, p.2)) <$> split_colon s'
  end.

(** [s.lstrip()], [s.rstrip()] and [s.strip()] *)
Fixpoint lstrip (s : string) : string :=
  match s with
  | "" => ""
  | String c s' => if py_isspace c then lstrip s' else s
  end.

Fixpoint rstrip (s : string) : string :=
  match s with
  | "" => ""
  | String c s' =>
      match rstrip s' with
      | "" => if py_isspace c then "" else String c ""
      | r => String c r
      end
  end.

Definition strip (s : string) : string := rstrip (lstrip s).

(** The body of the inner loop, on the dictionary [characteristics]. *)
Definition parse_value (field value : string)
    (characteristics : gmap string (option string))
    : gmap string (option string) :=
  match split_colon value with
  | Some (key, val) => <[strip key := Some (strip val)]> characteristics
  | None => <[field := Some value]> characteristics
  end.

Definition char_fields (metadata : list (string * list string)) : list string :=
  filter (λ key, contains "characteristics" (lower key) = true) metadata.*1.

Definition direct_fields : list string :=
  ["age"; "gender"; "tissue"; "disease_state"; "treatment"].

Definition parse_characteristics (metadata : list (string * list string))
    : gmap string (option string) :=
  let characteristics :=
    foldl (λ c field,
             foldl (λ c value, parse_value field value c) c
                   (default [] (assoc field metadata)))
          ∅ (char_fields metadata) in
  foldl (λ c key,
           match assoc key metadata with
           | Some values => <[key := head values]> c
           | None => c
           end)
        characteristics direct_fields.

(** A string without white space at either end. *)
Definition trimmed (s : string) : Prop := lstrip s = s ∧ rstrip s = s.

(** ** GEOCollector.extract_cpg_sites *)

(** A row of the summary frame; [in_datasets] is its ['datasets'] entry. *)
Record cpg_row : Type := {
  cpg_site : scalar;
  present_in_datasets : nat;
  in_datasets : list string
}.

(** [present_in]: the accessions whose set holds the identifier, in the
    order of the dictionary [dataset_cpgs]. *)
Definition present_in (dataset_cpgs : list (string * gset scalar))
    (cpg : scalar) : list string :=
  (filter (λ d, cpg ∈ d.2) dataset_cpgs).*1.

Definition cpg_summary (datasets : list (string * dataset_info))
    : list cpg_row :=
  let dataset_cpgs := all_cpg_sites datasets in
  (λ cpg, {| cpg_site := cpg;
             present_in_datasets := length (present_in dataset_cpgs cpg);
             in_datasets := present_in dataset_cpgs cpg |})
    <$> elements (all_cpgs dataset_cpgs).

(** The order of [sort_values('present_in_datasets', ascending=False)]. *)
Definition more_present (a b : cpg_row) : Prop :=
  present_in_datasets b ≤ present_in_datasets a.

#[global] Instance more_present_dec (a b : cpg_row)
    : Decision (more_present a b).
Proof. unfold more_present. apply _. Defined.

(** The rows of the returned frame, in its order.  A frame built from an
    empty list has no columns, and sorting it by a column raises
    [KeyError].  pandas sorts with a sort that is not stable: rows with the
    same count come in an order the program cannot rely on. *)
Definition extract_cpg_sites (datasets : list (string * dataset_info))
    : result (list cpg_row) :=
  match cpg_summary datasets with
  | [] => Raise KeyError
  | rows => Ok (sorting.merge_sort more_present rows)
  end.

(** ** MetaAnalyzer.analyze_geo_data: the platform and organism tallies *)

(** [counts[k] = counts.get(k, 0) + 1] for each key in turn. *)
Definition tally (keys : list string) : gmap string nat :=
  foldl (λ counts k, <[k := default 0 (counts !! k) + 1]> counts) ∅ keys.

Definition platform_counts (geo_datasets : list (string * dataset_info))
    : gmap string nat :=
  tally ((λ d : string * dataset_info, platform d.2) <$> geo_datasets).

Definition organism_counts (geo_datasets : list (string * dataset_info))
    : gmap string nat :=
  tally ((λ d : string * dataset_info, organism d.2) <$> geo_datasets).

(** The sum of the values of a dictionary of counts. *)
Definition sum_counts (counts : gmap string nat) : nat :=
  map_fold (λ _ n total, n + total) 0 counts.

(** ** main.run_meta_analysis on the summary document *)

(** The values of the summary document. *)
Inductive json : Type :=
  | JStr (s : string)
  | JNum (n : nat)
  | JBool (b : bool).

(** The dictionary written for one dataset by [collect_geo_data], as
    [json.load] gives it back. *)
Definition summary_dict (e : summary_entry) : gmap string json :=
  list_to_map
    [("accession", JStr (j_accession e));
     ("title", JStr (j_title e));
     ("summary", JStr (j_summary e));
     ("organism", JStr (j_organism e));
     ("platform", JStr (j_platform e));
     ("n_samples", JNum (j_n_samples e));
     ("has_methylation_data", JBool (j_has_methylation_data e))].

(** The document [geo_datasets.json] for a collection of datasets. *)
Definition summary_document (datasets : list (string * dataset_info))
    : list (string * gmap string json) :=
  (λ p, (p.1, summary_dict p.2)) <$> json_datasets datasets.

(** [d[key]] *)
Definition subscript {V : Type} (d : gmap string V) (key : string)
    : result V :=
  match d !! key with
  | Some v => Ok v
  | None => Raise KeyError
  end.

(** [analyze_geo_data] on dictionaries loaded from a file, up to the first
    statement of its loop, [len(dataset["samples"])]; [rest] stands for all
    that follows it and [empty] for the [{}] returned on no dataset. *)
Definition analyze_loaded {V R : Type}
    (rest : V → list (string * gmap string V) → result R) (empty : R)
    (geo_datasets : list (string * gmap string V)) : result R :=
  match geo_datasets with
  | [] => Ok empty
  | (_, dataset) :: _ =>
      samples ← subscript dataset "samples";
      rest samples geo_datasets
  end.

(** * The specification's own definitions *)




(** A frame without missing cells: every column has one cell per row and no
    cell is null. *)
Definition no_missing_cells (df : DataFrame) : Prop :=
  Forall (λ c, length c.2 = length (index df) ∧
               Forall (λ x, isnull x = false) c.2) (columns df).

Section jaccard.
Context {F : PyFloat}.



End jaccard.

(** * Concrete inputs

    Tables, datasets and worlds on which the properties below are
    evaluated. *)

Fixpoint repeat_char (c : ascii) (n : nat) : string :=
  match n with
  | 0 => ""
  | S n' => String c (repeat_char c n')
  end.

Definition long_dataset : dataset_info :=
  {| accession := "GSE42861"; title := "Blood methylation";
     summary := repeat_char "a" 500 +:+ "bcd";
     organism := "Homo sapiens"; platform := "GPL13534";
     samples := []; methylation_data := None; sample_metadata := [] |}.


(** A sample table as GEOparse reads it: the rows are numbered and the
    probe names sit in the first column. *)
Definition geo_table : DataFrame :=
  {| index := [SInt 0; SInt 1];
     columns := [("ID_REF", [SStr "cg00000029"; SStr "cg00000108"]);
                 ("VALUE", [SFloat 464 (-3); SFloat 871 (-3)])] |}.

(** Tables whose rows are labelled by the probe names of the first column. *)
Definition labelled_table : DataFrame :=
  {| index := [SStr "cg00000029"; SStr "cg00000108"];
     columns := [("ID_REF", [SStr "cg00000029"; SStr "cg00000108"]);
                 ("VALUE", [SFloat 464 (-3); SNaN])] |}.

Definition labelled_table2 : DataFrame :=
  {| index := [SStr "cg00000108"; SStr "cg00000165"];
     columns := [("ID_REF", [SStr "cg00000108"; SStr "cg00000165"]);
                 ("Beta_value", [SFloat 7 (-1); SFloat 1 (-1)])] |}.

(** A table with neither of the two preferred column names. *)
Definition signal_table : DataFrame :=
  {| index := [SStr "cg00000029"];
     columns := [("ID_REF", [SStr "cg00000029"]);
                 ("Signal", [SFloat 25 (-2)])] |}.

(** Two datasets without any identifier. *)
Definition two_empty : list (string * gset scalar) :=
  [("GSE40279", ∅); ("GSE42861", ∅)].

Definition probes (l : list string) : gset scalar := list_to_set (SStr <$> l).


Definition three_datasets : list (string * gset scalar) :=
  [("GSE1", probes ["a"; "b"; "c"]);
   ("GSE2", probes ["b"; "c"; "d"]);
   ("GSE3", probes ["c"; "d"; "e"])].

(** A remote series in two states, and call worlds around them. *)
Definition series_v1 : GSE :=
  {| metadata := {[ "title" := ["Blood methylome"] ]};
     gsms := [("GSM1", {| gsm_metadata := ∅; table := Some signal_table |})] |}.


Definition world (gse : GSE) (w : write_outcome) : env :=
  {| get_GEO := λ _, Ok gse; write := w |}.

Definition offline : env :=
  {| get_GEO := λ _, Raise IOError; write := WriteOk |}.

(** A collection in which a single dataset has a combined matrix. *)
Definition record_of (acc : string) (md : option DataFrame) : dataset_info :=
  {| accession := acc; title := "Unknown"; summary := "";
     organism := "Homo sapiens"; platform := "GPL13534";
     samples := []; methylation_data := md; sample_metadata := [] |}.

Definition combined_frame : DataFrame :=
  {| index := [SStr "cg00000029"; SStr "cg00000108"];
     columns := [("sample_0", [SFloat 464 (-3); SFloat 871 (-3)])] |}.

Definition one_qualifying : list (string * dataset_info) :=
  [("GSE40279", record_of "GSE40279" (Some combined_frame));
   ("GSE42861", record_of "GSE42861" None)].

(** A remote series whose sample carries a table as GEOparse reads it. *)
Definition series_numbered : GSE :=
  {| metadata := {[ "title" := ["Blood methylome"] ]};
     gsms := [("GSM1", {| gsm_metadata := ∅; table := Some geo_table |})] |}.

(** * More concrete inputs *)

(** The metadata of a sample, with a characteristics field and a direct
    field. *)
Definition sample_metadata_items : list (string * list string) :=
  [("title", ["Blood, donor 12"]);
   ("characteristics_ch1", ["age: 34"; " tissue : whole blood "; "smoker"]);
   ("age", ["35"])].

(** A disk with a cache entry that loads, and one with an entry that does
    not. *)
Definition warm_disk : gmap string file :=
  {[ cache_path "data/geo_cache" "GSE40279"
       := Pickled (record_of "GSE40279" None) ]}.

Definition corrupt_disk : gmap string file :=
  {[ cache_path "data/geo_cache" "GSE42861" := Corrupt ]}.


(** A series whose two samples carry labelled tables. *)
Definition series_labelled : GSE :=
  {| metadata := {[ "title" := ["Blood methylome"] ]};
     gsms := [("GSM1", {| gsm_metadata := ∅; table := Some labelled_table |});
              ("GSM2", {| gsm_metadata := ∅; table := Some labelled_table2 |})] |}.

(** A configuration of two accessions, one with an entry that has no
    accession, and worlds in which only the first fetch fails. *)
Definition two_accessions : gmap string (list (gmap string string)) :=
  {[ "datasets" := entry_of <$> ["GSE40279"; "GSE42861"] ]}.

Definition unnamed_entry : gmap string (list (gmap string string)) :=
  {[ "datasets" := [entry_of "GSE40279"; {[ "title" := "Blood" ]};
                    entry_of "GSE42861"] ]}.

Definition first_offline (k : nat) : env :=
  match k with
  | 0 => offline
  | _ => world series_labelled WriteOk
  end.

(** Tables from which no values can be extracted. *)
Definition no_columns : DataFrame := {| index := []; columns := [] |}.

Definition value_first : DataFrame :=
  {| index := [SInt 0];
     columns := [("VALUE", [SFloat 25 (-2)]); ("ID_REF", [SStr "cg00000029"])] |}.

(** * Properties *)

(** ** The summary document *)

Lemma str_prefix_split (n : nat) (s : string) :
  n ≤ String.length s →
  ∃ suf, s = str_prefix n s +:+ suf ∧ String.length (str_prefix n s) = n.
Proof.
  unfold str_prefix. revert s.
  induction n as [|n IH]; intros s Hn.
  - exists s. by destruct s.
  - destruct s as [|c s]; [simpl in Hn; lia|].
    destruct (IH s) as (suf & Heq & Hlen); [simpl in Hn; lia|].
    exists suf. split.
    + change (String c s = String c (String.substring 0 n s +:+ suf)).
      congruence.
    + simpl. congruence.
Qed.

(** C9. In the summary document the entry of a dataset carries its summary
    unchanged when it has at most 500 characters, and otherwise exactly the
    first 500 characters followed by ["..."]. *)
Theorem summary_truncated_at_500 (datasets : list (string * dataset_info))
    (i : nat) (acc : string) (data : dataset_info) :
  datasets !! i = Some (acc, data) →
  ∃ e, json_datasets datasets !! i = Some (acc, e) ∧
    (500 < String.length (summary data) →
       ∃ first500 rest,
         summary data = first500 +:+ rest ∧
         String.length first500 = 500 ∧
         j_summary e = first500 +:+ "...") ∧
    (String.length (summary data) ≤ 500 → j_summary e = summary data).
Proof.
  intros Hi. exists (summary_of data). split.
  - unfold json_datasets. by rewrite list_lookup_fmap, Hi.
  - simpl. unfold summary_field. split; intros Hlen.
    + destruct (str_prefix_split 500 (summary data)) as (suf & Heq & Hl); [lia|].
      exists (str_prefix 500 (summary data)), suf.
      split; [done|]. split; [done|].
      by rewrite (proj2 (Nat.ltb_lt _ _) Hlen).
    + by rewrite (proj2 (Nat.ltb_ge _ _) Hlen).
Qed.

Lemma summary_truncated_at_500_witness :
  ∃ e, json_datasets [("GSE42861", long_dataset)] !! 0 = Some ("GSE42861", e) ∧
       j_summary e = repeat_char "a" 500 +:+ "...".
Proof.
  destruct (summary_truncated_at_500 [("GSE42861", long_dataset)] 0
              "GSE42861" long_dataset eq_refl) as (e & He & _).
  exists e. split; [exact He|].
  injection He as <-. vm_compute. reflexivity.
Defined.

(** ** The cache *)

Lemma fetch_cache_hit (cache_dir : string) (e : env)
    (files : gmap string file) (acc : string) (d : dataset_info) :
  files !! cache_path cache_dir acc = Some (Pickled d) →
  fetch_dataset cache_dir e files acc
  = {| returned := Some d; disk := files; remote_requests := 0 |}.
Proof. intros H. unfold fetch_dataset. by rewrite H. Qed.

Lemma fetch_cache_miss (cache_dir : string) (e : env)
    (files : gmap string file) (acc : string) :
  (∀ d, files !! cache_path cache_dir acc ≠ Some (Pickled d)) →
  fetch_dataset cache_dir e files acc
  = match gse ← get_GEO e acc; build_dataset acc gse with
    | Ok d =>
        {| returned := Some d;
           disk := write_cache (write e) (cache_path cache_dir acc) d files;
           remote_requests := 1 |}
    | Raise _ => {| returned := None; disk := files; remote_requests := 1 |}
    end.
Proof.
  intros H. unfold fetch_dataset.
  destruct (files !! cache_path cache_dir acc) as [[d|]|] eqn:E; try done.
  by destruct (H d).
Qed.







(** ** The value column *)

Lemma assoc_Some_elem_of {A : Type} (name : string) (l : list (string * A)) :
  is_Some (assoc name l) ↔ name ∈ l.*1.
Proof.
  induction l as [|[k v] l IH]; simpl.
  - split; [by intros [? ?] | by intros ?%elem_of_nil].
  - case_decide as Hk.
    + subst. split; [intros _; left | by eauto].
    + rewrite IH. split; [by right|].
      intros [?|?]%elem_of_cons; [congruence | done].
Qed.

Lemma has_column_assoc (name : string) (m : DataFrame) :
  has_column name m = true ↔ is_Some (assoc name (columns m)).
Proof.
  unfold has_column. rewrite bool_decide_eq_true. symmetry.
  apply assoc_Some_elem_of.
Qed.

Lemma has_column_false (name : string) (m : DataFrame) :
  has_column name m = false ↔ assoc name (columns m) = None.
Proof.
  rewrite <- not_true_iff_false, has_column_assoc, <- eq_None_not_Some. done.
Qed.



(** ** The guard of [fetch_dataset] on sample tables *)

Lemma for_each_cons {A S : Type} (body : S → A → result S) (s : S) (x : A)
    (xs : list A) :
  for_each body s (x :: xs) = body s x ≫= λ s', for_each body s' xs.
Proof. reflexivity. Qed.

Lemma sample_step_inv (st st' : list sample_info * list DataFrame)
    (g : string * GSM) :
  sample_step st g = Ok st' →
  st'.2 = st.2 ++ option_list (kept_table g) ∧ length st'.1 = S (length st.1).
Proof.
  unfold sample_step, kept_table.
  destruct (metadata_first (gsm_metadata g.2) "title" "") as [t|]; [|done].
  destruct (metadata_first (gsm_metadata g.2) "source_name_ch1" "")
    as [s|]; [|done].
  simpl. intros [= <-]. simpl. rewrite length_app. simpl. split; [|lia].
  destruct (table g.2) as [t0|]; [|by rewrite app_nil_r].
  destruct (has_value_column t0); [done | by rewrite app_nil_r].
Qed.

Lemma sample_step_matrices (gs : list (string * GSM))
    (st st' : list sample_info * list DataFrame) :
  for_each sample_step st gs = Ok st' →
  st'.2 = st.2 ++ omap kept_table gs
  ∧ length st'.1 = length st.1 + length gs.
Proof.
  revert st. induction gs as [|g gs IH]; intros st.
  - simpl. intros [= <-]. by rewrite app_nil_r, Nat.add_0_r.
  - rewrite for_each_cons.
    destruct (sample_step st g) as [st1|] eqn:E; [|done].
    apply sample_step_inv in E as [E1 E2].
    simpl. intros H. apply IH in H as [H1 H2].
    rewrite H1, H2, E1, E2. split; [|lia].
    rewrite <- app_assoc. f_equal.
    by destruct (kept_table g).
Qed.








(** ** The combiner *)

Lemma for_enumerate_inv {A B : Type} (f : nat → A → result B) (i : nat)
    (xs : list A) (ys : list B) :
  for_enumerate f i xs = Ok ys →
  length ys = length xs ∧
  ∀ k y, ys !! k = Some y → ∃ x, xs !! k = Some x ∧ f (i + k) x = Ok y.
Proof.
  revert i ys. induction xs as [|x xs IH]; intros i ys; simpl.
  - intros [= <-]. split; [done|]. intros k y Hk. by destruct k.
  - destruct (f i x) as [y0|] eqn:E0; [|done]. simpl.
    destruct (for_enumerate f (S i) xs) as [ys'|] eqn:E; [|done]. simpl.
    intros [= <-]. destruct (IH _ _ E) as [Hlen Hk]. split; [simpl; lia|].
    intros [|k] y; simpl.
    + intros [= <-]. exists x. by rewrite Nat.add_0_r.
    + intros Hy. destruct (Hk k y Hy) as (x' & Hx & Hf).
      exists x'. split; [done|]. by rewrite <- Nat.add_succ_comm.
Qed.

Lemma elem_of_rows_of (s : Series) (l : scalar) (p : scalar * scalar) :
  p ∈ rows_of s l ↔ p.1 = l ∧ p ∈ s.
Proof. unfold rows_of. by rewrite list_elem_of_filter. Qed.

Lemma loc_inv (s : Series) (labels : list scalar) (r : Series) :
  loc s labels = Ok r →
  (∀ p, p ∈ r → p ∈ s ∧ p.1 ∈ labels) ∧
  (∀ l, l ∈ labels → l ∈ r.*1).
Proof.
  revert r. induction labels as [|l labels IH]; intros r; simpl.
  - intros [= <-]. split; [by intros p ?%elem_of_nil | by intros l ?%elem_of_nil].
  - destruct (rows_of s l) as [|p0 rows] eqn:E; [done|].
    destruct (loc s labels) as [rest|]; [|done]. simpl. intros [= <-].
    destruct (IH rest eq_refl) as [IH1 IH2]. split.
    + intros p Hp. change (p ∈ (p0 :: rows) ++ rest) in Hp.
      apply elem_of_app in Hp as [Hp|Hp].
      * rewrite <- E in Hp. apply elem_of_rows_of in Hp as [<- Hp].
        split; [done | left].
      * destruct (IH1 p Hp). split; [done | by right].
    + intros l' [->|Hl]%elem_of_cons.
      * assert (Hp0 : p0 ∈ rows_of s l) by (rewrite E; left).
        apply elem_of_rows_of in Hp0 as [<- _]. simpl. left.
      * change (l' ∈ ((p0 :: rows) ++ rest).*1).
        rewrite fmap_app. apply elem_of_app. right. by apply IH2.
Qed.

(** Series selected by one duplicate-free label list have the same labels
    unless one of them repeats a label. *)
Lemma loc_index_differs (s : Series) (labels : list scalar) (r : Series) :
  loc s labels = Ok r → NoDup r.*1 → r.*1 = labels.
Proof.
  revert r. induction labels as [|l labels IH]; intros r; simpl.
  - by intros [= <-].
  - destruct (rows_of s l) as [|p0 rows] eqn:E; [done|].
    destruct (loc s labels) as [rest|]; [|done]. simpl. intros [= <-].
    assert (Hall : ∀ p, p ∈ p0 :: rows → p.1 = l).
    { intros p Hp. rewrite <- E in Hp. by apply elem_of_rows_of in Hp as [? _]. }
    simpl. intros Hnd. apply NoDup_cons in Hnd as [Hnotin Hnd].
    destruct rows as [|p1 rows].
    + simpl in *. f_equal; [apply Hall; left | by apply IH].
    + exfalso. apply Hnotin. simpl.
      rewrite (Hall p0) by left. rewrite <- (Hall p1) by (right; left). left.
Qed.

Lemma frame_of_series_inv (d : list (string * Series)) (df : DataFrame) :
  frame_of_series d = Ok df →
  columns df = (λ c, (c.1, c.2.*2)) <$> d ∧
  (∀ c, c ∈ d → c.2.*1 = index df).
Proof.
  unfold frame_of_series. destruct d as [|[n0 s0] d'].
  - intros [= <-]. split; [done | by intros c ?%elem_of_nil].
  - case_bool_decide as Hall; [|done]. intros [= <-]. split; [done|].
    intros c Hc. simpl. by apply (proj1 (Forall_forall _ _) Hall).
Qed.

Lemma common_cpgs_from (c0 : gset scalar) (ms : list DataFrame) :
  ∃ c, foldl common_step (Some c0) ms = Some c ∧
       ∀ x, x ∈ c ↔ x ∈ c0 ∧ ∀ m, m ∈ ms → x ∈ cpg_sites m.
Proof.
  revert c0. induction ms as [|m ms IH]; intros c0; simpl.
  - exists c0. split; [done|]. intros x. split; [|by intros [? _]].
    intros Hx. split; [done|]. by intros m ?%elem_of_nil.
  - destruct (IH (c0 ∩ cpg_sites m)) as (c & Hc & Hx). exists c.
    split; [done|]. intros x. rewrite Hx, elem_of_intersection. split.
    + intros [[H0 Hm] Hms]. split; [done|].
      intros m' [->|?]%elem_of_cons; [done | by apply Hms].
    + intros [H0 Hms]. split; [split; [done | apply Hms; left]|].
      intros m' Hm'. apply Hms. by right.
Qed.

(** The first loop computes the intersection of the index sets. *)
Lemma common_cpgs_spec (m : DataFrame) (ms : list DataFrame) :
  ∃ c, common_cpgs (m :: ms) = Some c ∧
       ∀ x, x ∈ c ↔ ∀ m', m' ∈ m :: ms → x ∈ cpg_sites m'.
Proof.
  unfold common_cpgs. simpl.
  destruct (common_cpgs_from (cpg_sites m) ms) as (c & Hc & Hx).
  exists c. split; [done|]. intros x. rewrite Hx. split.
  - intros [H0 Hms] m' [->|?]%elem_of_cons; [done | by apply Hms].
  - intros H. split; [apply H; left | intros m' ?; apply H; by right].
Qed.

Lemma combine_inv (matrices : list DataFrame) (df : DataFrame) :
  combine_methylation_data matrices = Ok (Some df) →
  ∃ common cols,
    common_cpgs matrices = Some common ∧ common ≠ ∅ ∧
    for_enumerate (combine_column common) 0 matrices = Ok cols ∧
    frame_of_series cols = Ok df.
Proof.
  unfold combine_methylation_data. intros H.
  destruct matrices as [|m ms]; [done|].
  remember (m :: ms) as mats eqn:Hmats.
  destruct (common_cpgs mats) as [common|] eqn:Ec; [|done].
  destruct (decide (common = ∅)) as [|Hne]; [done|].
  destruct (for_enumerate (combine_column common) 0 mats) as [cols|] eqn:Ecols;
    [|done].
  simpl in H. destruct (frame_of_series cols) as [df'|] eqn:E; [|done].
  simpl in H. injection H as <-. by exists common, cols.
Qed.

(** When the combiner returns a frame, its row labels are the labels common
    to the indexes of all the tables. *)
Lemma combined_rows (matrices : list DataFrame) (df : DataFrame) :
  combine_methylation_data matrices = Ok (Some df) →
  ∀ x, x ∈ index df ↔ ∀ m, m ∈ matrices → x ∈ index m.
Proof.
  intros H. destruct (combine_inv _ _ H) as (common & cols & Hc & Hne & Hcols & Hdf).
  destruct matrices as [|m ms]; [done|].
  destruct (common_cpgs_spec m ms) as (c & Hc' & Hx).
  rewrite Hc in Hc'. injection Hc' as <-.
  destruct (frame_of_series_inv _ _ Hdf) as [_ Hidx].
  destruct (for_enumerate_inv _ _ _ _ Hcols) as [Hlen Hk].
  destruct cols as [|c0 cols]; [done|].
  destruct (Hk 0 c0 eq_refl) as (m0 & Hm0 & Hcol). simpl in Hm0.
  injection Hm0 as <-. unfold combine_column in Hcol.
  destruct (extract_values m) as [values|]; [|done]. simpl in Hcol.
  destruct (loc values (elements common)) as [cv|] eqn:Eloc; [|done].
  simpl in Hcol. injection Hcol as <-.
  destruct (loc_inv _ _ _ Eloc) as [H1 H2].
  specialize (Hidx _ (list_elem_of_here _ _)). simpl in Hidx.
  intros x. rewrite <- Hidx.
  assert (Hxc : x ∈ cv.*1 ↔ x ∈ common).
  { split.
    - intros ([l v] & -> & Hp)%list_elem_of_fmap.
      destruct (H1 _ Hp) as [_ Hl]. by apply elem_of_elements in Hl.
    - intros Hx'. apply H2. by apply elem_of_elements. }
  rewrite Hxc, Hx. unfold cpg_sites. by setoid_rewrite elem_of_list_to_set.
Qed.

(** C8, as stated, fails: a value missing in a sample's table is missing in
    the combined matrix. *)
Lemma combined_keeps_missing_value :
  ∃ df, combine_methylation_data [labelled_table] = Ok (Some df)
        ∧ ¬ no_missing_cells df.
Proof.
  eexists. split; [vm_compute; reflexivity|].
  intros H. apply Forall_cons in H as [[_ H] _]. simpl in H.
  apply Forall_cons in H as [H _]. discriminate.
Qed.

(** C8, amended. A frame returned by the combiner has one column per sample
    table, named [sample_i] in the order of the tables; every column has
    exactly one cell for every row; and the cell of a row is a value that the
    sample's table gives, in its value column, for the identifier labelling
    the row.  So a cell is missing only where the sample's own table has a
    missing value: restricting to the common identifiers adds none. *)
Theorem combined_cells_from_tables (matrices : list DataFrame)
    (df : DataFrame) :
  combine_methylation_data matrices = Ok (Some df) →
  length (columns df) = length matrices ∧
  ∀ i c, columns df !! i = Some c →
    c.1 = sample_name i ∧
    length c.2 = length (index df) ∧
    ∃ m values,
      matrices !! i = Some m ∧ extract_values m = Ok values ∧
      (∀ k l x, index df !! k = Some l → c.2 !! k = Some x → (l, x) ∈ values) ∧
      (Forall (λ p, isnull p.2 = false) values →
       Forall (λ x, isnull x = false) c.2).
Proof.
  intros H. destruct (combine_inv _ _ H) as (common & cols & Hc & Hne & Hcols & Hdf).
  destruct (frame_of_series_inv _ _ Hdf) as [Hcolumns Hidx].
  destruct (for_enumerate_inv _ _ _ _ Hcols) as [Hlen Hk].
  split; [by rewrite Hcolumns, length_fmap|].
  intros i c Hi. rewrite Hcolumns, list_lookup_fmap in Hi.
  destruct (cols !! i) as [[n s]|] eqn:Ei; simpl in Hi; [|done].
  injection Hi as <-. simpl.
  destruct (Hk i _ Ei) as (m & Hm & Hcol). simpl in Hcol.
  unfold combine_column in Hcol.
  destruct (extract_values m) as [values|] eqn:Ev; [|done]. simpl in Hcol.
  destruct (loc values (elements common)) as [cv|] eqn:Eloc; [|done].
  simpl in Hcol. injection Hcol as <- <-.
  assert (Hs : cv.*1 = index df).
  { apply (Hidx (sample_name i, cv)). by apply list_elem_of_lookup_2 in Ei. }
  destruct (loc_inv _ _ _ Eloc) as [Hfrom _].
  split; [done|]. split; [by rewrite <- Hs, !length_fmap|].
  exists m, values. split; [done|]. split; [done|].
  assert (Hcell : ∀ k l x, index df !! k = Some l → cv.*2 !! k = Some x →
                           (l, x) ∈ values).
  { intros k l x Hl Hx. rewrite <- Hs, list_lookup_fmap in Hl.
    rewrite list_lookup_fmap in Hx.
    destruct (cv !! k) as [[l' x']|] eqn:Ek; [|done]. simpl in *.
    injection Hl as <-. injection Hx as <-.
    apply list_elem_of_lookup_2 in Ek. by apply Hfrom in Ek as [? _]. }
  split; [exact Hcell|].
  intros Hvalues. apply Forall_forall. intros x Hx.
  apply list_elem_of_fmap in Hx as ([l x'] & -> & Hp). simpl.
  apply Hfrom in Hp as [Hp _].
  by apply (proj1 (Forall_forall _ _) Hvalues) in Hp.
Qed.

Lemma combined_cells_from_tables_witness :
  ∃ df, combine_methylation_data [labelled_table; labelled_table2] = Ok (Some df)
        ∧ length (columns df) = 2.
Proof.
  destruct (combine_methylation_data [labelled_table; labelled_table2])
    as [[df|]|] eqn:E; [|vm_compute in E; discriminate..].
  exists df. split; [reflexivity|].
  exact (proj1 (combined_cells_from_tables _ df E)).
Defined.

(** The values extracted from a table are labelled by entries of its first
    column. *)
Lemma extract_values_labels (m : DataFrame) (values : Series) :
  extract_values m = Ok values →
  ∃ name ids rest, columns m = (name, ids) :: rest ∧
                   ∀ p, p ∈ values → p.1 ∈ ids.
Proof.
  unfold extract_values, set_index_first, getitem, iloc_first.
  destruct (columns m) as [|[name ids] rest] eqn:Ec; [by destruct (branch_of m)|].
  intros H. exists name, ids, rest. split; [done|].
  assert (∃ vals, values = zip ids vals) as [vals ->].
  { destruct (branch_of m); simpl in H.
    - destruct (assoc "VALUE" rest) as [vals|]; [|done].
      injection H as <-. by eexists.
    - destruct (assoc "Beta_value" rest) as [vals|]; [|done].
      injection H as <-. by eexists.
    - destruct rest as [|[? vals] ?]; [done|]. injection H as <-. by eexists. }
  intros [l x] Hp. by apply elem_of_zip_l in Hp.
Qed.

(** The combiner can only return a matrix when every identifier common to
    the indexes also occurs in the first column of every table. *)
Lemma combined_rows_in_first_column (matrices : list DataFrame)
    (df : DataFrame) (m : DataFrame) (x : scalar) :
  combine_methylation_data matrices = Ok (Some df) →
  m ∈ matrices → x ∈ index df →
  ∃ name ids rest, columns m = (name, ids) :: rest ∧ x ∈ ids.
Proof.
  intros H Hm Hx.
  destruct (combine_inv _ _ H) as (common & cols & Hc & Hne & Hcols & Hdf).
  destruct (frame_of_series_inv _ _ Hdf) as [_ Hidx].
  destruct (for_enumerate_inv _ _ _ _ Hcols) as [Hlen Hk].
  apply list_elem_of_lookup in Hm as [i Hi].
  destruct (lookup_lt_is_Some_2 cols i) as [c Hci].
  { rewrite Hlen. by apply lookup_lt_Some in Hi. }
  destruct (Hk i c Hci) as (m' & Hm' & Hcol).
  rewrite Hi in Hm'. injection Hm' as <-.
  unfold combine_column in Hcol.
  destruct (extract_values m) as [values|] eqn:Ev; [|done]. simpl in Hcol.
  destruct (loc values (elements common)) as [cv|] eqn:Eloc; [|done].
  simpl in Hcol. injection Hcol as <-.
  destruct (extract_values_labels _ _ Ev) as (name & ids & rest & Hcm & Hids).
  exists name, ids, rest. split; [done|].
  rewrite <- (Hidx _ (list_elem_of_lookup_2 _ _ _ Hci)) in Hx. simpl in Hx.
  apply list_elem_of_fmap in Hx as (p & -> & Hp).
  apply Hids. by apply (loc_inv _ _ _ Eloc).
Qed.

Lemma rows_of_unique (s : Series) (l : scalar) :
  NoDup s.*1 → l ∈ s.*1 → ∃ v, rows_of s l = [(l, v)].
Proof.
  unfold rows_of. induction s as [|[l' v'] s IH]; simpl.
  - by intros _ ?%elem_of_nil.
  - intros [Hnotin Hnd]%NoDup_cons Hl. rewrite filter_cons. simpl.
    case_decide as Heq.
    + subst l'. exists v'. f_equal.
      destruct (filter (λ r : scalar * scalar, r.1 = l) s)
        as [|[l0 v0] t] eqn:Ef; [done|].
      exfalso. apply Hnotin.
      assert (Hin : (l0, v0) ∈ filter (λ r : scalar * scalar, r.1 = l) s)
        by (rewrite Ef; left).
      apply list_elem_of_filter in Hin as [Hl0 Hin]. simpl in Hl0. subst l0.
      apply list_elem_of_fmap. by exists (l, v0).
    + apply IH; [done|]. apply elem_of_cons in Hl as [?|?]; [congruence | done].
Qed.

Lemma loc_ok (s : Series) (labels : list scalar) :
  NoDup s.*1 → (∀ l, l ∈ labels → l ∈ s.*1) →
  ∃ r, loc s labels = Ok r ∧ r.*1 = labels.
Proof.
  intros Hnd. induction labels as [|l labels IH]; intros Hl; simpl.
  - by exists [].
  - destruct (rows_of_unique s l Hnd) as [v ->]; [apply Hl; left|].
    destruct IH as (r & -> & Hr); [intros l' ?; apply Hl; by right|].
    simpl. exists ((l, v) :: r). split; [done|]. by rewrite fmap_cons, Hr.
Qed.

Lemma for_enumerate_ok {A B : Type} (f : nat → A → result B) (P : B → Prop)
    (i : nat) (xs : list A) :
  (∀ k x, xs !! k = Some x → ∃ y, f (i + k) x = Ok y ∧ P y) →
  ∃ ys, for_enumerate f i xs = Ok ys ∧ Forall P ys.
Proof.
  revert i. induction xs as [|x xs IH]; intros i Hf; simpl.
  - by exists [].
  - destruct (Hf 0 x eq_refl) as (y & Hy & HP). rewrite Nat.add_0_r in Hy.
    destruct (IH (S i)) as (ys & Hys & HPs).
    { intros k x' Hk. destruct (Hf (S k) x' Hk) as (y' & Hy' & HP').
      exists y'. by rewrite Nat.add_succ_comm. }
    rewrite Hy, Hys. simpl. exists (y :: ys). split; [done | by constructor].
Qed.

(** What the combiner does on tables whose first column repeats a
    duplicate-free index, so that the extracted values are labelled by the
    index: with a common identifier it returns a matrix, and the rows of the
    matrix are the identifiers common to all the tables. *)
Lemma combine_labelled_tables (matrices : list DataFrame) :
  matrices ≠ [] →
  (∀ m, m ∈ matrices →
        NoDup (index m) ∧
        ∃ values, extract_values m = Ok values ∧ values.*1 = index m) →
  (∃ x, ∀ m, m ∈ matrices → x ∈ index m) →
  ∃ df, combine_methylation_data matrices = Ok (Some df) ∧
        ∀ x, x ∈ index df ↔ ∀ m, m ∈ matrices → x ∈ index m.
Proof.
  intros Hne Hlab [x0 Hx0].
  assert (∃ df, combine_methylation_data matrices = Ok (Some df)) as [df Hdf];
    [|exists df; split; [done | by apply combined_rows]].
  destruct matrices as [|m0 ms]; [done|]. clear Hne.
  destruct (common_cpgs_spec m0 ms) as (common & Hc & Hx).
  unfold combine_methylation_data. rewrite Hc.
  assert (Hin : x0 ∈ common).
  { apply Hx. intros m Hm. unfold cpg_sites. apply elem_of_list_to_set.
    by apply Hx0. }
  destruct (decide (common = ∅)) as [->|_]; [by apply not_elem_of_empty in Hin|].
  destruct (for_enumerate_ok (combine_column common)
              (λ c, c.2.*1 = elements common) 0 (m0 :: ms))
    as (cols & Hcols & Hall).
  { intros k m Hk. apply list_elem_of_lookup_2 in Hk.
    destruct (Hlab m Hk) as (Hnd & values & Hv & Hidx).
    unfold combine_column. rewrite Hv. simpl.
    destruct (loc_ok values (elements common)) as (cv & -> & Hcv).
    - by rewrite Hidx.
    - intros l Hl%elem_of_elements. rewrite Hidx.
      pose proof (proj1 (Hx l) Hl m Hk) as Hlm. unfold cpg_sites in Hlm.
      by apply elem_of_list_to_set in Hlm.
    - simpl. by eexists. }
  rewrite Hcols. simpl. unfold frame_of_series.
  destruct cols as [|[n0 s0] cols].
  { apply for_enumerate_inv in Hcols as [Hlen _]. discriminate. }
  rewrite bool_decide_eq_true_2; [by eexists|].
  apply Forall_forall. intros c Hcin.
  rewrite (proj1 (Forall_forall _ _) Hall c Hcin).
  by rewrite (proj1 (Forall_forall _ _) Hall (n0, s0)) by left.
Qed.

(** C1. The combiner takes the identifiers of a table from its index but
    looks the common ones up among the entries of the first column.  On a
    table as GEOparse reads it, with numbered rows and the probe names in the
    first column, the intersection of the index sets is not empty, and the
    look-up raises [KeyError]: no matrix is returned. *)
Theorem combine_numbered_rows_raises :
  common_cpgs [geo_table] = Some (cpg_sites geo_table) ∧
  SInt 0 ∈ cpg_sites geo_table ∧
  combine_methylation_data [geo_table] = Raise KeyError.
Proof.
  split; [reflexivity|]. split; [|by vm_compute].
  unfold cpg_sites, geo_table. simpl. set_solver.
Qed.

(** On the fetch path the [KeyError] of the combiner is caught by the outer
    handler: the dataset is reported as failed and nothing is cached. *)
Lemma fetch_numbered_rows_fails :
  let o := fetch_dataset "data/geo_cache" (world series_numbered WriteOk) ∅
             "GSE42861" in
  returned o = None ∧ disk o = ∅.
Proof. split; reflexivity. Qed.

(** ** The overlap analysis *)

Lemma for_each_snoc {A S : Type} (body : S → A → result S) (s : S)
    (xs : list A) (x : A) :
  for_each body s (xs ++ [x]) = for_each body s xs ≫= λ s', body s' x.
Proof.
  revert s. induction xs as [|y xs IH]; intros s; simpl.
  - by destruct (body s x).
  - destruct (body s y) as [s'|]; simpl; [apply IH | done].
Qed.


Lemma foldl_insert_notin {A V : Type} (key : A → string) (val : A → V)
    (l : list A) (m0 : gmap string V) (k : string) :
  k ∉ key <$> l →
  foldl (λ m x, <[key x := val x]> m) m0 l !! k = m0 !! k.
Proof.
  revert m0. induction l as [|a l IH]; intros m0 Hk; simpl; [done|].
  rewrite fmap_cons in Hk. apply not_elem_of_cons in Hk as [Hne Hk].
  rewrite IH by done. by rewrite lookup_insert_ne.
Qed.

Lemma foldl_insert_lookup {A V : Type} (key : A → string) (val : A → V)
    (l : list A) (m0 : gmap string V) (x : A) :
  NoDup (key <$> l) → x ∈ l →
  foldl (λ m x, <[key x := val x]> m) m0 l !! key x = Some (val x).
Proof.
  revert m0. induction l as [|a l IH]; intros m0 Hnd Hx; simpl.
  - by apply elem_of_nil in Hx.
  - rewrite fmap_cons in Hnd. apply NoDup_cons in Hnd as [Hnotin Hnd].
    apply elem_of_cons in Hx as [->|Hx]; [|by apply IH].
    rewrite foldl_insert_notin by done. apply lookup_insert_eq.
Qed.

Section reconciler_facts.
Context {F : PyFloat}.






(** An empty dataset next to non-empty ones has rounded overlap 0.0 with
    each of them. *)
Lemma empty_dataset_overlap_zero (s : gset scalar) :
  s ≠ ∅ → round3 (truediv (size (∅ ∩ s)) (size (∅ ∪ s))) = f_zero.
Proof.
  intros Hs. rewrite (left_absorb_L ∅ (∩)), (left_id_L ∅ (∪)), size_empty.
  rewrite truediv_zero, round3_zero; [done|].
  assert (size s ≠ 0); [|lia].
  intros H0. by apply size_empty_inv, leibniz_equiv in H0.
Qed.

(** C7. With two datasets whose identifier sets are both empty the union of
    the two sets is empty and the quotient of their overlap divides by zero:
    the overlap matrix, and with it the whole overlap analysis, raises
    [ZeroDivisionError]. *)
Theorem two_empty_datasets_divide_by_zero :
  create_overlap_matrix two_empty = Raise ZeroDivisionError ∧
  analyze_cpg_overlap two_empty = Raise ZeroDivisionError.
Proof. split; by vm_compute. Qed.

End reconciler_facts.


(** ** Universe, core and exclusive counts *)

Lemma elem_of_all_cpgs_from (a0 : gset scalar)
    (cpg_data : list (string * gset scalar)) (x : scalar) :
  x ∈ foldl (λ all d, all ∪ d.2) a0 cpg_data ↔
  x ∈ a0 ∨ ∃ d, d ∈ cpg_data ∧ x ∈ d.2.
Proof.
  revert a0. induction cpg_data as [|d l IH]; intros a0; simpl.
  - split; [by left|]. intros [?|(d & Hd & _)]; [done|].
    by apply elem_of_nil in Hd.
  - rewrite IH, elem_of_union. split.
    + intros [[?|?]|(d' & Hd' & ?)]; [by left | right; exists d | right; exists d'];
        (split; [|done]); [left | by right].
    + intros [?|(d' & Hd' & ?)]; [by left; left|].
      apply elem_of_cons in Hd' as [->|?]; [by left; right | right; by exists d'].
Qed.

Lemma elem_of_all_cpgs (cpg_data : list (string * gset scalar)) (x : scalar) :
  x ∈ all_cpgs cpg_data ↔ ∃ d, d ∈ cpg_data ∧ x ∈ d.2.
Proof.
  unfold all_cpgs. rewrite elem_of_all_cpgs_from. split; [|by right].
  intros [?%not_elem_of_empty|?]; done.
Qed.

Lemma elem_of_core_from (c0 : gset scalar)
    (rest : list (string * gset scalar)) (x : scalar) :
  x ∈ foldl (λ core d', core ∩ d'.2) c0 rest ↔
  x ∈ c0 ∧ ∀ d, d ∈ rest → x ∈ d.2.
Proof.
  revert c0. induction rest as [|d l IH]; intros c0; simpl.
  - split; [|by intros [? _]]. intros ?. split; [done|].
    by intros d ?%elem_of_nil.
  - rewrite IH, elem_of_intersection. split.
    + intros [[? ?] Hl]. split; [done|].
      intros d' [->|?]%elem_of_cons; [done | by apply Hl].
    + intros [? Hl]. split; [split; [done | apply Hl; left]|].
      intros d' ?. apply Hl. by right.
Qed.

Lemma core_cpgs_spec (d : string * gset scalar)
    (rest : list (string * gset scalar)) :
  ∃ core, core_cpgs (d :: rest) = Ok core ∧
          ∀ x, x ∈ core ↔ ∀ d', d' ∈ d :: rest → x ∈ d'.2.
Proof.
  eexists. split; [reflexivity|]. intros x. rewrite elem_of_core_from. split.
  - intros [? Hl] d' [->|?]%elem_of_cons; [done | by apply Hl].
  - intros H. split; [apply H; left | intros d' ?; apply H; by right].
Qed.

(** Every dataset has its exclusive count, computed against the sets of the
    datasets with another accession. *)
Lemma dataset_specific_lookup (cpg_data : list (string * gset scalar))
    (d : string * gset scalar) :
  NoDup cpg_data.*1 → d ∈ cpg_data →
  dataset_specific cpg_data !! d.1
  = Some (size (d.2 ∖ others d.1 cpg_data)).
Proof.
  intros Hnd Hd. unfold dataset_specific.
  by apply (foldl_insert_lookup fst
              (λ d, size (d.2 ∖ others d.1 cpg_data)) cpg_data ∅ d).
Qed.


Section reconciler_core.
Context {F : PyFloat}.


End reconciler_core.



(** * Further properties of the code *)

(** ** Loops that may raise *)

Lemma for_each_ok {A S : Type} (body : S → A → result S) (s : S)
    (xs : list A) :
  (∀ s x, x ∈ xs → ∃ s', body s x = Ok s') →
  ∃ s', for_each body s xs = Ok s'.
Proof.
  revert s. induction xs as [|x xs IH]; intros s Hb; simpl; [by eauto|].
  destruct (Hb s x) as [s1 ->]; [left|]. simpl.
  apply IH. intros s2 y Hy. apply Hb. by right.
Qed.

Lemma for_each_raise {A S : Type} (body : S → A → result S) (e : exn)
    (s : S) (xs : list A) (x : A) :
  x ∈ xs →
  (∀ s, body s x = Raise e) →
  (∀ s y, y ∈ xs → (∃ s', body s y = Ok s') ∨ body s y = Raise e) →
  for_each body s xs = Raise e.
Proof.
  revert s. induction xs as [|y xs IH]; intros s Hx Hbad Hall; simpl.
  - by apply elem_of_nil in Hx.
  - destruct (Hall s y) as [[s1 Hs1]|Hr]; [left | | by rewrite Hr].
    rewrite Hs1. simpl. apply elem_of_cons in Hx as [->|Hx].
    + rewrite Hbad in Hs1. discriminate.
    + apply IH; [done | done |]. intros s2 z Hz. apply Hall. by right.
Qed.


(** A counting loop that binds one key per round ends with exactly the keys
    of its rounds bound. *)
Lemma for_each_inserts_dom {V : Type}
    (body : gmap string V → nat → result (gmap string V))
    (keys : list string) (m : nat) (r : gmap string V) :
  (∀ r0 j r1, j < m → body r0 j = Ok r1 →
              ∃ k v, keys !! j = Some k ∧ r1 = <[k := v]> r0) →
  for_each body ∅ (seq 0 m) = Ok r →
  dom r = list_to_set (take m keys).
Proof.
  revert r. induction m as [|m IH]; intros r Hbody.
  - simpl. intros [= <-]. by rewrite dom_empty_L.
  - rewrite seq_S, for_each_snoc. simpl.
    destruct (for_each body ∅ (seq 0 m)) as [r0|] eqn:E; [|done]. simpl.
    intros Hr. destruct (Hbody r0 m r ltac:(lia) Hr) as (k & v & Hk & ->).
    rewrite dom_insert_L, (IH r0); [|intros; eapply Hbody; [lia|done] | done].
    rewrite (take_S_r _ _ _ Hk), list_to_set_app_L. simpl.
    rewrite (right_id_L ∅ (∪)). apply (comm_L (∪)).
Qed.

Lemma both_empty_pair (cpg_data : list (string * gset scalar)) :
  both_empty cpg_data ↔ ∃ i j, empty_pair cpg_data i j.
Proof.
  unfold both_empty, empty_pair. split.
  - intros (i & j & d1 & d2 & ? & ? & ? & ? & ?). exists i, j.
    split; [done|]. by exists d1, d2.
  - intros (i & j & ? & d1 & d2 & ? & ? & ? & ?). by exists i, j, d1, d2.
Qed.

Section reconciler_more.
Context {F : PyFloat}.

Lemma overlap_value_cases (cpg_data : list (string * gset scalar)) (i j : nat) :
  i < length cpg_data → j < length cpg_data →
  (overlap_value cpg_data i j = Raise ZeroDivisionError ∧
   empty_pair cpg_data i j) ∨
  ((∃ v, overlap_value cpg_data i j = Ok v) ∧ ¬ empty_pair cpg_data i j).
Proof.
  intros Hi Hj.
  destruct (lookup_lt_is_Some_2 cpg_data i Hi) as [d1 H1].
  destruct (lookup_lt_is_Some_2 cpg_data j Hj) as [d2 H2].
  unfold overlap_value, item, int_truediv, empty_pair.
  case_decide as Hij.
  { right. split; [by eauto|]. by intros [? _]. }
  rewrite H1, H2. simpl. case_decide as Hz.
  - left. split; [done|]. split; [done|]. exists d1, d2.
    apply size_empty_inv, leibniz_equiv in Hz.
    apply empty_union_L in Hz as [? ?]. done.
  - right. split; [by eauto|].
    intros (_ & d1' & d2' & [= <-] & [= <-] & E1 & E2). apply Hz.
    by rewrite E1, E2, (left_id_L ∅ (∪)), size_empty.
Qed.

Lemma overlap_row_cases (cpg_data : list (string * gset scalar)) (i : nat) :
  i < length cpg_data →
  (overlap_row cpg_data cpg_data.*1 (length cpg_data.*1) i
     = Raise ZeroDivisionError ∧ ∃ j, empty_pair cpg_data i j) ∨
  ((∃ row, overlap_row cpg_data cpg_data.*1 (length cpg_data.*1) i = Ok row) ∧
   ¬ ∃ j, empty_pair cpg_data i j).
Proof.
  intros Hi. unfold overlap_row.
  set (body := λ (row : gmap string pyfloat) (j : nat),
         overlap ← overlap_value cpg_data i j;
         acc_j ← item cpg_data.*1 j;
         Ok (<[acc_j := round3 overlap]> row)).
  assert (Hstep : ∀ row j, j ∈ seq 0 (length cpg_data.*1) →
            (body row j = Raise ZeroDivisionError ∧ empty_pair cpg_data i j) ∨
            ((∃ row', body row j = Ok row') ∧ ¬ empty_pair cpg_data i j)).
  { intros row j Hj. apply elem_of_seq in Hj as [_ Hj].
    rewrite length_fmap in Hj. simpl in Hj. subst body. simpl.
    destruct (overlap_value_cases cpg_data i j Hi Hj)
      as [[-> ?]|[[v ->] ?]]; [by left|].
    right. split; [|done]. simpl. unfold item.
    destruct (lookup_lt_is_Some_2 cpg_data j Hj) as [d2 H2].
    rewrite list_lookup_fmap, H2. simpl. by eauto. }
  destruct (decide (Exists (empty_pair cpg_data i) (seq 0 (length cpg_data.*1))))
    as [Hbad|Hgood].
  - left. apply Exists_exists in Hbad as (j & Hj & Hp).
    split; [|by exists j].
    apply (for_each_raise body ZeroDivisionError ∅ _ j Hj).
    + intros row. by destruct (Hstep row j Hj) as [[? _]|[_ ?]].
    + intros row y Hy. destruct (Hstep row y Hy) as [[? _]|[? _]];
        [by right | by left].
  - right. split.
    + apply for_each_ok. intros row j Hj.
      destruct (Hstep row j Hj) as [[_ Hp]|[? _]]; [|done].
      exfalso. apply Hgood, Exists_exists. by exists j.
    + intros [j Hp]. apply Hgood, Exists_exists. exists j. split; [|done].
      destruct Hp as (_ & d1 & d2 & _ & H2 & _).
      apply elem_of_seq. rewrite length_fmap. split; [lia|]. simpl.
      by apply lookup_lt_Some in H2.
Qed.

Lemma create_overlap_matrix_ok (cpg_data : list (string * gset scalar)) :
  (¬ ∃ i j, empty_pair cpg_data i j) →
  ∃ om, create_overlap_matrix cpg_data = Ok om.
Proof.
  intros Hnone. unfold create_overlap_matrix.
  apply for_each_ok. intros om i Hi. apply elem_of_seq in Hi as [_ Hi].
  rewrite length_fmap in Hi. simpl in Hi. unfold item.
  destruct (lookup_lt_is_Some_2 cpg_data i Hi) as [d1 H1].
  rewrite list_lookup_fmap, H1. simpl.
  destruct (overlap_row_cases cpg_data i Hi) as [[_ [j Hp]]|[[row ->] _]].
  - destruct Hnone. by exists i, j.
  - simpl. by eauto.
Qed.

(** X1. [_create_overlap_matrix] raises nothing but [ZeroDivisionError], and
    it raises it exactly when the list holds two entries, at different
    positions, whose identifier sets are both empty; on every other list it
    returns a matrix. *)
Theorem overlap_matrix_fails_on_two_empty
    (cpg_data : list (string * gset scalar)) :
  (both_empty cpg_data ∧
   create_overlap_matrix cpg_data = Raise ZeroDivisionError) ∨
  (¬ both_empty cpg_data ∧ ∃ om, create_overlap_matrix cpg_data = Ok om).
Proof.
  rewrite both_empty_pair. unfold create_overlap_matrix.
  set (body := λ (om : gmap string (gmap string pyfloat)) (i : nat),
         acc_i ← item cpg_data.*1 i;
         row ← overlap_row cpg_data cpg_data.*1 (length cpg_data.*1) i;
         Ok (<[acc_i := row]> om)).
  assert (Hstep : ∀ om i, i ∈ seq 0 (length cpg_data.*1) →
            (body om i = Raise ZeroDivisionError ∧
             ∃ j, empty_pair cpg_data i j) ∨
            ((∃ om', body om i = Ok om') ∧ ¬ ∃ j, empty_pair cpg_data i j)).
  { intros om i Hi. apply elem_of_seq in Hi as [_ Hi].
    rewrite length_fmap in Hi. simpl in Hi. subst body. simpl. unfold item.
    destruct (lookup_lt_is_Some_2 cpg_data i Hi) as [d1 H1].
    rewrite list_lookup_fmap, H1. simpl.
    destruct (overlap_row_cases cpg_data i Hi) as [[-> ?]|[[row ->] ?]];
      [by left | right]. split; [by eauto | done]. }
  destruct (decide (Exists (λ i, Exists (empty_pair cpg_data i)
                                   (seq 0 (length cpg_data.*1)))
                      (seq 0 (length cpg_data.*1)))) as [Hbad|Hgood].
  - left. apply Exists_exists in Hbad as (i & Hi & Hbad).
    apply Exists_exists in Hbad as (j & Hj & Hp).
    split; [by exists i, j|].
    apply (for_each_raise body ZeroDivisionError ∅ _ i Hi).
    + intros om. destruct (Hstep om i Hi) as [[? _]|[_ Hn]]; [done|].
      destruct Hn. by exists j.
    + intros om y Hy. destruct (Hstep om y Hy) as [[? _]|[? _]];
        [by right | by left].
  - assert (Hnone : ¬ ∃ i j, empty_pair cpg_data i j).
    { intros (i & j & Hp). apply Hgood, Exists_exists.
      destruct Hp as (Hij & d1 & d2 & H1 & H2 & E1 & E2).
      exists i. split.
      { apply elem_of_seq. rewrite length_fmap. split; [lia|]. simpl.
        by apply lookup_lt_Some in H1. }
      apply Exists_exists. exists j. split.
      { apply elem_of_seq. rewrite length_fmap. split; [lia|]. simpl.
        by apply lookup_lt_Some in H2. }
      split; [done|]. by exists d1, d2. }
    right. split; [done|]. subst body. by apply create_overlap_matrix_ok.
Qed.

End reconciler_more.

Section reconciler_shape.
Context {F : PyFloat}.

Lemma overlap_row_dom (cpg_data : list (string * gset scalar)) (i : nat)
    (row : gmap string pyfloat) :
  overlap_row cpg_data cpg_data.*1 (length cpg_data.*1) i = Ok row →
  dom row = list_to_set cpg_data.*1.
Proof.
  unfold overlap_row. intros H.
  rewrite <- (firstn_all cpg_data.*1) at 1.
  eapply for_each_inserts_dom; [|exact H].
  intros r0 j r1 Hj Hb. cbv beta in Hb.
  destruct (overlap_value cpg_data i j) as [v|]; [|done]. simpl in Hb.
  unfold item in Hb. destruct (cpg_data.*1 !! j) as [k|]; [|done].
  simpl in Hb. injection Hb as <-. by eauto.
Qed.

(** X2. A matrix returned by [_create_overlap_matrix] is square over the
    accessions: it has a row for each accession of the list and for no other
    key, and every row has an entry for each accession and for no other
    key. *)
Theorem overlap_matrix_keys (cpg_data : list (string * gset scalar))
    (om : gmap string (gmap string pyfloat)) :
  create_overlap_matrix cpg_data = Ok om →
  dom om = list_to_set cpg_data.*1 ∧
  ∀ a b, is_Some (entry om a b) ↔ a ∈ cpg_data.*1 ∧ b ∈ cpg_data.*1.
Proof.
  unfold create_overlap_matrix. intros H.
  set (body := λ (om : gmap string (gmap string pyfloat)) (i : nat),
         acc_i ← item cpg_data.*1 i;
         row ← overlap_row cpg_data cpg_data.*1 (length cpg_data.*1) i;
         Ok (<[acc_i := row]> om)) in H.
  assert (Hbody : ∀ r0 j r1, body r0 j = Ok r1 →
            ∃ k row, cpg_data.*1 !! j = Some k ∧ r1 = <[k := row]> r0 ∧
                     dom row = list_to_set cpg_data.*1).
  { intros r0 j r1 Hb. subst body. simpl in Hb. unfold item in Hb.
    destruct (cpg_data.*1 !! j) as [k|]; [|done]. simpl in Hb.
    destruct (overlap_row _ _ _ j) as [row|] eqn:Er; [|done]. simpl in Hb.
    injection Hb as <-. exists k, row. split; [done|]. split; [done|].
    by apply overlap_row_dom in Er. }
  assert (Hdom : dom om = list_to_set cpg_data.*1).
  { rewrite <- (firstn_all cpg_data.*1) at 1.
    eapply for_each_inserts_dom; [|exact H].
    intros r0 j r1 _ Hb. destruct (Hbody r0 j r1 Hb) as (k & row & ? & ? & _).
    by eauto. }
  assert (Hrows : ∀ a row, om !! a = Some row →
            dom row = list_to_set cpg_data.*1).
  { clear Hdom. revert om H.
    generalize (length cpg_data.*1) at 1. intros n. induction n as [|n IH];
      intros om H a row Ha.
    - simpl in H. injection H as <-. by rewrite lookup_empty in Ha.
    - rewrite seq_S, for_each_snoc in H. simpl in H.
      destruct (for_each body ∅ (seq 0 n)) as [om0|] eqn:E; [|done].
      simpl in H. destruct (Hbody om0 n om H) as (k & row' & _ & -> & Hr).
      destruct (decide (k = a)) as [->|Hne].
      + rewrite lookup_insert_eq in Ha. by injection Ha as <-.
      + rewrite lookup_insert_ne in Ha by done. by eapply IH. }
  split; [done|]. intros a b. unfold entry. split.
  - intros [v Hv]. destruct (om !! a) as [row|] eqn:Ea; [|done].
    simpl in Hv. split.
    + apply (elem_of_list_to_set (C := gset string)). rewrite <- Hdom.
      by apply elem_of_dom.
    + apply (elem_of_list_to_set (C := gset string)).
      rewrite <- (Hrows a row Ea). by apply elem_of_dom.
  - intros [Ha Hb].
    apply (elem_of_list_to_set (C := gset string)) in Ha, Hb.
    rewrite <- Hdom in Ha. apply elem_of_dom in Ha as [row Ea].
    rewrite Ea. simpl. apply elem_of_dom. by rewrite (Hrows a row Ea).
Qed.

Lemma analyze_cpg_overlap_inv (cpg_data : list (string * gset scalar))
    (r : overlap_report) :
  analyze_cpg_overlap cpg_data = Ok (Report r) →
  ∃ d rest core,
    cpg_data = d :: rest ∧ rest ≠ [] ∧
    core_cpgs cpg_data = Ok core ∧
    (∀ x, x ∈ core ↔ ∀ d', d' ∈ cpg_data → x ∈ d'.2) ∧
    total_unique_cpgs r = size (all_cpgs cpg_data) ∧
    core_cpgs_count r = size core ∧
    core_cpg_list r = take 100 (elements core) ∧
    dataset_specific_counts r = dataset_specific cpg_data ∧
    create_overlap_matrix cpg_data = Ok (overlap_matrix r).
Proof.
  unfold analyze_cpg_overlap.
  destruct (length cpg_data <? 2) eqn:El; [done|].
  apply Nat.ltb_ge in El.
  destruct cpg_data as [|d [|d' rest]]; [simpl in El; lia..|].
  destruct (core_cpgs_spec d (d' :: rest)) as (core & Hcore & Hx).
  destruct (create_overlap_matrix (d :: d' :: rest)) as [m0|] eqn:Em;
    rewrite Hcore; simpl; [|done].
  intros [= <-]. exists d, (d' :: rest), core.
  split; [done|]. split; [done|]. split; [done|]. split; [exact Hx|].
  by repeat split.
Qed.

(** X3. In a report of the overlap analysis the number of core identifiers
    is at most the number of identifiers of any dataset, which in turn is at
    most the number of unique identifiers; and a report is only made for two
    datasets or more. *)
Theorem core_at_most_every_dataset (cpg_data : list (string * gset scalar))
    (r : overlap_report) (d : string * gset scalar) :
  analyze_cpg_overlap cpg_data = Ok (Report r) →
  d ∈ cpg_data →
  core_cpgs_count r ≤ size d.2 ∧
  size d.2 ≤ total_unique_cpgs r ∧
  2 ≤ length cpg_data.
Proof.
  intros H Hd.
  destruct (analyze_cpg_overlap_inv _ _ H)
    as (d0 & rest & core & Hcd & Hrest & _ & Hx & Ht & Hc & _).
  rewrite Hc, Ht. split; [|split].
  - apply subseteq_size. intros x Hxc. by apply (Hx x).
  - apply subseteq_size. intros x Hxd. apply elem_of_all_cpgs. by exists d.
  - rewrite Hcd. destruct rest; [done | simpl; lia].
Qed.

(** X4. The list of core identifiers of a report is a preview of the core:
    it has no duplicates, it holds min(100, number of core identifiers)
    entries, and each of them is an identifier of every dataset. *)
Theorem core_list_is_bounded_preview (cpg_data : list (string * gset scalar))
    (r : overlap_report) :
  analyze_cpg_overlap cpg_data = Ok (Report r) →
  NoDup (core_cpg_list r) ∧
  length (core_cpg_list r) = core_cpgs_count r `min` 100 ∧
  ∀ x d, x ∈ core_cpg_list r → d ∈ cpg_data → x ∈ d.2.
Proof.
  intros H.
  destruct (analyze_cpg_overlap_inv _ _ H)
    as (d0 & rest & core & _ & _ & _ & Hx & _ & Hc & Hl & _).
  rewrite Hl, Hc. split; [|split].
  - apply (sublist_NoDup _ (elements core)); [apply NoDup_elements|].
    apply sublist_take.
  - rewrite length_take. apply Nat.min_comm.
  - intros x d Hin Hd. apply Hx; [|done].
    apply elem_of_elements. by apply (subseteq_take 100).
Qed.

Lemma elem_of_others_from (acc : string) (o0 : gset scalar)
    (cpg_data : list (string * gset scalar)) (x : scalar) :
  x ∈ foldl (λ o d, if decide (d.1 ≠ acc) then o ∪ d.2 else o) o0 cpg_data ↔
  x ∈ o0 ∨ ∃ d, d ∈ cpg_data ∧ d.1 ≠ acc ∧ x ∈ d.2.
Proof.
  revert o0. induction cpg_data as [|d l IH]; intros o0; simpl.
  - split; [by left|]. intros [?|(d & Hd & _)]; [done|].
    by apply elem_of_nil in Hd.
  - rewrite IH. case_decide as Hne.
    + rewrite elem_of_union. split.
      * intros [[?|?]|(d' & ? & ? & ?)]; [by left | right; exists d |
          right; exists d']; (split; [|done]); [left | by right].
      * intros [?|(d' & Hd' & ? & ?)]; [by left; left|].
        apply elem_of_cons in Hd' as [->|?]; [by left; right|].
        right. by exists d'.
    + split.
      * intros [?|(d' & ? & ? & ?)]; [by left|]. right. exists d'.
        split; [by right | done].
      * intros [?|(d' & Hd' & ? & ?)]; [by left|].
        apply elem_of_cons in Hd' as [->|?]; [done|]. right. by exists d'.
Qed.

Lemma elem_of_others (acc : string) (cpg_data : list (string * gset scalar))
    (x : scalar) :
  x ∈ others acc cpg_data ↔ ∃ d, d ∈ cpg_data ∧ d.1 ≠ acc ∧ x ∈ d.2.
Proof.
  unfold others. rewrite elem_of_others_from. split; [|by right].
  intros [?%not_elem_of_empty|?]; done.
Qed.

(** X5. For datasets with distinct accessions, the exclusive count a report
    gives for a dataset is the number of its identifiers that occur in no
    other dataset; such identifiers are never core identifiers, so the
    exclusive count and the core count together are at most the number of
    identifiers of the dataset. *)
Theorem exclusive_count_of_dataset (cpg_data : list (string * gset scalar))
    (r : overlap_report) (d : string * gset scalar) :
  analyze_cpg_overlap cpg_data = Ok (Report r) →
  NoDup cpg_data.*1 →
  d ∈ cpg_data →
  ∃ exclusive : gset scalar,
    dataset_specific_counts r !! d.1 = Some (size exclusive) ∧
    (∀ x, x ∈ exclusive ↔
          x ∈ d.2 ∧ ∀ d', d' ∈ cpg_data → d' ≠ d → x ∉ d'.2) ∧
    size exclusive + core_cpgs_count r ≤ size d.2.
Proof.
  intros H Hnd Hd.
  destruct (analyze_cpg_overlap_inv _ _ H)
    as (d0 & rest & core & Hcd & Hrest & _ & Hx & _ & Hc & _ & Hs & _).
  assert (Hacc : ∀ d', d' ∈ cpg_data → (d'.1 ≠ d.1 ↔ d' ≠ d)).
  { intros d' Hd'. split; [congruence|]. intros Hne Heq. apply Hne.
    apply list_elem_of_lookup in Hd as [i Hi].
    apply list_elem_of_lookup in Hd' as [j Hj].
    assert (i = j) as ->; [|congruence].
    eapply NoDup_lookup; [exact Hnd | |];
      rewrite list_lookup_fmap; [by rewrite Hi | rewrite Hj; simpl; by rewrite Heq]. }
  exists (d.2 ∖ others d.1 cpg_data).
  assert (Hex : ∀ x, x ∈ d.2 ∖ others d.1 cpg_data ↔
            x ∈ d.2 ∧ ∀ d', d' ∈ cpg_data → d' ≠ d → x ∉ d'.2).
  { intros x. rewrite elem_of_difference, elem_of_others. split.
    - intros [? Hno]. split; [done|]. intros d' Hd' Hne Hin. apply Hno.
      exists d'. split; [done|]. split; [by apply Hacc | done].
    - intros [? Hno]. split; [done|]. intros (d' & Hd' & Hne & Hin).
      apply (Hno d' Hd'); [by apply Hacc | done]. }
  split; [rewrite Hs; by apply dataset_specific_lookup|]. split; [exact Hex|].
  assert (∃ d', d' ∈ cpg_data ∧ d' ≠ d) as (d' & Hd' & Hne).
  { rewrite Hcd in Hd |- *. destruct rest as [|d1 rest]; [done|].
    destruct (decide (d0 = d)) as [->|Hne0].
    - exists d1. split; [right; left|]. intros ->.
      rewrite Hcd in Hnd. simpl in Hnd. apply NoDup_cons in Hnd as [Hn _].
      apply Hn. left.
    - exists d0. split; [left | done]. }
  rewrite Hc, <- size_union.
  - apply subseteq_size. intros x [Hxe|Hxc]%elem_of_union.
    + by apply Hex in Hxe as [? _].
    + by apply (Hx x).
  - intros x Hxe Hxc. apply Hex in Hxe as [_ Hno].
    apply (Hno d' Hd' Hne). by apply (Hx x).
Qed.

End reconciler_shape.

Lemma overlap_matrix_keys_witness :
  ∃ om, create_overlap_matrix (F := exact_float) three_datasets = Ok om ∧
        dom om = list_to_set three_datasets.*1 ∧
        is_Some (entry om "GSE3" "GSE1") ∧ ¬ is_Some (entry om "GSE1" "GSE4").
Proof.
  destruct (create_overlap_matrix (F := exact_float) three_datasets)
    as [om|] eqn:E; [|vm_compute in E; discriminate].
  exists om. split; [reflexivity|].
  destruct (overlap_matrix_keys (F := exact_float) three_datasets om E)
    as [Hd He].
  split; [exact Hd|]. split.
  - apply He. split; compute_done.
  - intros Hs. apply He in Hs as [_ Hs]. revert Hs. compute_done.
Defined.

Lemma core_at_most_every_dataset_witness :
  ∃ r, analyze_cpg_overlap (F := exact_float) three_datasets = Ok (Report r) ∧
       core_cpgs_count r ≤ size (probes ["b"; "c"; "d"]) ∧
       size (probes ["b"; "c"; "d"]) ≤ total_unique_cpgs r.
Proof.
  assert (Hr : match analyze_cpg_overlap (F := exact_float) three_datasets with
               | Ok (Report _) => True
               | _ => False
               end) by (vm_compute; exact I).
  destruct (analyze_cpg_overlap (F := exact_float) three_datasets)
    as [[|r]|] eqn:E; [destruct Hr | clear Hr | destruct Hr].
  exists r. split; [reflexivity|].
  destruct (core_at_most_every_dataset (F := exact_float) three_datasets r
              ("GSE2", probes ["b"; "c"; "d"]) E) as (H1 & H2 & _).
  - apply elem_of_cons. right. apply elem_of_cons. left; reflexivity.
  - split; [exact H1 | exact H2].
Defined.

Lemma core_list_is_bounded_preview_witness :
  ∃ r, analyze_cpg_overlap (F := exact_float) three_datasets = Ok (Report r) ∧
       NoDup (core_cpg_list r) ∧
       length (core_cpg_list r) = core_cpgs_count r `min` 100.
Proof.
  assert (Hr : match analyze_cpg_overlap (F := exact_float) three_datasets with
               | Ok (Report _) => True
               | _ => False
               end) by (vm_compute; exact I).
  destruct (analyze_cpg_overlap (F := exact_float) three_datasets)
    as [[|r]|] eqn:E; [destruct Hr | clear Hr | destruct Hr].
  exists r. split; [reflexivity|].
  destruct (core_list_is_bounded_preview (F := exact_float) three_datasets r E)
    as (H1 & H2 & _).
  split; [exact H1 | exact H2].
Defined.

Lemma exclusive_count_of_dataset_witness :
  ∃ r (exclusive : gset scalar),
    analyze_cpg_overlap (F := exact_float) three_datasets = Ok (Report r) ∧
    dataset_specific_counts r !! "GSE1" = Some (size exclusive) ∧
    size exclusive + core_cpgs_count r ≤ size (probes ["a"; "b"; "c"]).
Proof.
  assert (Hr : match analyze_cpg_overlap (F := exact_float) three_datasets with
               | Ok (Report _) => True
               | _ => False
               end) by (vm_compute; exact I).
  destruct (analyze_cpg_overlap (F := exact_float) three_datasets)
    as [[|r]|] eqn:E; [destruct Hr | clear Hr | destruct Hr].
  destruct (exclusive_count_of_dataset (F := exact_float) three_datasets r
              ("GSE1", probes ["a"; "b"; "c"]) E) as (ex & H1 & _ & H3).
  - compute_done.
  - apply elem_of_cons. left; reflexivity.
  - exists r, ex. split; [reflexivity|]. split; [exact H1 | exact H3].
Defined.

(** ** More on the combiner *)

Lemma sample_name_inj (i j : nat) : sample_name i = sample_name j → i = j.
Proof.
  unfold sample_name. intros H.
  apply (inj (String.app "sample_")) in H. by apply (inj pretty) in H.
Qed.

Lemma for_enumerate_cons {A B : Type} (f : nat → A → result B) (i : nat)
    (x : A) (xs : list A) :
  for_enumerate f i (x :: xs)
  = f i x ≫= λ y, for_enumerate f (S i) xs ≫= λ ys, Ok (y :: ys).
Proof. reflexivity. Qed.

Lemma combine_column_name (common : gset scalar) (i : nat) (m : DataFrame)
    (c : string * Series) :
  combine_column common i m = Ok c → c.1 = sample_name i.
Proof.
  unfold combine_column.
  destruct (extract_values m) as [values|]; [|done]. simpl.
  destruct (loc values (elements common)) as [cv|]; [|done]. simpl.
  by intros [= <-].
Qed.

Lemma for_enumerate_names (common : gset scalar) (i : nat)
    (matrices : list DataFrame) (cols : list (string * Series)) :
  for_enumerate (combine_column common) i matrices = Ok cols →
  cols.*1 = sample_name <$> seq i (length matrices).
Proof.
  revert i cols. induction matrices as [|m ms IH]; intros i cols H.
  - simpl in H. by injection H as <-.
  - rewrite for_enumerate_cons in H.
    destruct (combine_column common i m) as [c|] eqn:Ec; [|done].
    simpl in H.
    destruct (for_enumerate (combine_column common) (S i) ms) as [cols'|] eqn:E;
      [|done].
    simpl in H. injection H as <-. simpl. f_equal.
    + by apply combine_column_name in Ec.
    + by apply IH.
Qed.

(** X6. The columns of a matrix returned by the combiner are named
    [sample_0], [sample_1], ... in the order of the tables, and these names
    are pairwise different: no sample overwrites another in the dictionary
    the matrix is built from. *)
Theorem combined_column_names (matrices : list DataFrame) (df : DataFrame) :
  combine_methylation_data matrices = Ok (Some df) →
  (columns df).*1 = sample_name <$> seq 0 (length matrices) ∧
  NoDup (columns df).*1.
Proof.
  intros H.
  destruct (combine_inv _ _ H) as (common & cols & _ & _ & Hcols & Hdf).
  destruct (frame_of_series_inv _ _ Hdf) as [Hcolumns _].
  assert (Hn : (columns df).*1 = sample_name <$> seq 0 (length matrices)).
  { rewrite Hcolumns, <- list_fmap_compose.
    by rewrite <- (for_enumerate_names _ _ _ _ Hcols). }
  split; [done|]. rewrite Hn. apply NoDup_fmap_2; [|apply NoDup_seq].
  intros i j. apply sample_name_inj.
Qed.

Lemma combined_column_names_witness :
  ∃ df, combine_methylation_data [labelled_table; labelled_table2] = Ok (Some df)
        ∧ (columns df).*1 = sample_name <$> seq 0 2.
Proof.
  destruct (combine_methylation_data [labelled_table; labelled_table2])
    as [[df|]|] eqn:E; [|vm_compute in E; discriminate..].
  exists df. split; [reflexivity|].
  exact (proj1 (combined_column_names _ df E)).
Defined.




(** X8. How the extraction of the values of one table fails.  A table
    without columns raises [IndexError]; so does a table with a single
    column that is named neither ["VALUE"] nor ["Beta_value"], for want of a
    second column; and when the first column itself carries the name that
    is looked for, and no later column does, the look-up raises [KeyError],
    because the first column has become the index. *)
Theorem extract_values_failures (m : DataFrame) :
  (columns m = [] → extract_values m = Raise IndexError) ∧
  (∀ name ids, columns m = [(name, ids)] → name ≠ "VALUE" →
               name ≠ "Beta_value" → extract_values m = Raise IndexError) ∧
  (∀ ids rest, columns m = ("VALUE", ids) :: rest → "VALUE" ∉ rest.*1 →
               extract_values m = Raise KeyError) ∧
  (∀ ids rest, columns m = ("Beta_value", ids) :: rest →
               "VALUE" ∉ rest.*1 → "Beta_value" ∉ rest.*1 →
               extract_values m = Raise KeyError).
Proof.
  assert (Hnone : ∀ name (l : list (string * list scalar)),
            name ∉ l.*1 → assoc name l = None).
  { intros name l Hn. apply eq_None_not_Some. by rewrite assoc_Some_elem_of. }
  unfold extract_values, branch_of.
  split; [|split; [|split]].
  - intros Hc.
    rewrite (proj2 (has_column_false "VALUE" m)) by by rewrite Hc.
    rewrite (proj2 (has_column_false "Beta_value" m)) by by rewrite Hc.
    unfold set_index_first. by rewrite Hc.
  - intros name ids Hc Hv Hb.
    rewrite (proj2 (has_column_false "VALUE" m))
      by (rewrite Hc; simpl; by rewrite decide_False).
    rewrite (proj2 (has_column_false "Beta_value" m))
      by (rewrite Hc; simpl; by rewrite decide_False).
    unfold set_index_first. by rewrite Hc.
  - intros ids rest Hc Hn.
    rewrite (proj2 (has_column_assoc "VALUE" m))
      by (rewrite Hc; simpl; by eauto).
    unfold set_index_first, getitem. rewrite Hc. simpl. by rewrite Hnone.
  - intros ids rest Hc Hv Hb.
    rewrite (proj2 (has_column_false "VALUE" m))
      by (rewrite Hc; simpl; by apply Hnone).
    rewrite (proj2 (has_column_assoc "Beta_value" m))
      by (rewrite Hc; simpl; by eauto).
    unfold set_index_first, getitem. rewrite Hc. simpl. by rewrite Hnone.
Qed.

Lemma extract_values_failures_witness :
  extract_values no_columns = Raise IndexError ∧
  extract_values value_first = Raise KeyError.
Proof.
  split.
  - apply (proj1 (extract_values_failures no_columns)). reflexivity.
  - destruct (extract_values_failures value_first) as (_ & _ & H & _).
    apply (H [SFloat 25 (-2)] [("ID_REF", [SStr "cg00000029"])]);
      [reflexivity | compute_done].
Defined.

(** ** More on the cache *)

(** X9. [fetch_dataset] never touches a cache entry that loads: whatever
    the accession asked for and whatever the remote repository and the disk
    do, an entry that holds a record before the call holds the same record
    after it; and the call asks the remote repository at most once. *)
Theorem fetch_keeps_loadable_entries (cache_dir : string) (e : env)
    (files : gmap string file) (acc p : string) (d : dataset_info) :
  files !! p = Some (Pickled d) →
  disk (fetch_dataset cache_dir e files acc) !! p = Some (Pickled d) ∧
  remote_requests (fetch_dataset cache_dir e files acc) ≤ 1.
Proof.
  intros Hp. unfold fetch_dataset.
  destruct (decide (p = cache_path cache_dir acc)) as [->|Hne].
  - rewrite Hp. simpl. split; [done | lia].
  - destruct (files !! cache_path cache_dir acc) as [[d0|]|]; simpl;
      [split; [done | lia]|..];
      (destruct (get_GEO e acc ≫= build_dataset acc) as [d1|]; simpl;
       [|split; [done | lia]]);
      (split; [|lia]); destruct (write e); simpl;
      by rewrite ?lookup_insert_ne.
Qed.

Lemma fetch_keeps_loadable_entries_witness :
  let o := fetch_dataset "data/geo_cache" (world series_v1 WriteOk) warm_disk
             "GSE42861" in
  disk o !! cache_path "data/geo_cache" "GSE40279"
  = Some (Pickled (record_of "GSE40279" None)) ∧
  remote_requests o ≤ 1.
Proof.
  intros o.
  apply (fetch_keeps_loadable_entries "data/geo_cache"
           (world series_v1 WriteOk) warm_disk "GSE42861").
  vm_compute. reflexivity.
Defined.



(** X11. A cache entry that does not load is repaired by the next call
    that succeeds in writing: the call goes to the remote repository, and
    afterwards the entry holds the record it returned. *)
Theorem corrupt_entry_is_replaced (cache_dir : string) (e : env)
    (files : gmap string file) (acc : string) (d : dataset_info) :
  files !! cache_path cache_dir acc = Some Corrupt →
  write e = WriteOk →
  returned (fetch_dataset cache_dir e files acc) = Some d →
  get_GEO e acc ≫= build_dataset acc = Ok d ∧
  remote_requests (fetch_dataset cache_dir e files acc) = 1 ∧
  disk (fetch_dataset cache_dir e files acc) !! cache_path cache_dir acc
  = Some (Pickled d).
Proof.
  intros Hc Hw. unfold fetch_dataset. rewrite Hc.
  destruct (get_GEO e acc ≫= build_dataset acc) as [d1|]; simpl; [|done].
  intros [= <-]. rewrite Hw. simpl. by rewrite lookup_insert_eq.
Qed.

Lemma corrupt_entry_is_replaced_witness :
  let o := fetch_dataset "data/geo_cache" (world series_v1 WriteOk)
             corrupt_disk "GSE42861" in
  ∃ d, returned o = Some d ∧ remote_requests o = 1 ∧
       disk o !! cache_path "data/geo_cache" "GSE42861" = Some (Pickled d).
Proof.
  intros o.
  destruct (returned o) as [d|] eqn:E; [|vm_compute in E; discriminate].
  exists d. split; [reflexivity|].
  destruct (corrupt_entry_is_replaced "data/geo_cache"
              (world series_v1 WriteOk) corrupt_disk "GSE42861" d)
    as (_ & H2 & H3);
    [vm_compute; reflexivity | reflexivity | exact E |
     split; [exact H2 | exact H3]].
Defined.

(** ** The record built from the remote answer *)

Lemma metadata_first_spec (md : gmap string (list string))
    (key default v : string) :
  metadata_first md key default = Ok v ↔
  match md !! key with
  | None => v = default
  | Some [] => False
  | Some (x :: _) => v = x
  end.
Proof.
  unfold metadata_first. destruct (md !! key) as [[|x l]|];
    split; try done; try (by intros [= <-]); by intros ->.
Qed.

Lemma sample_step_ids (gs : list (string * GSM))
    (st st' : list sample_info * list DataFrame) :
  for_each sample_step st gs = Ok st' →
  sample_id <$> st'.1 = (sample_id <$> st.1) ++ gs.*1.
Proof.
  revert st. induction gs as [|g gs IH]; intros st.
  - simpl. intros [= <-]. by rewrite app_nil_r.
  - rewrite for_each_cons.
    destruct (sample_step st g) as [st1|] eqn:E; [|done]. simpl.
    intros H. rewrite (IH _ H). unfold sample_step in E.
    destruct (metadata_first (gsm_metadata g.2) "title" "") as [t|]; [|done].
    destruct (metadata_first (gsm_metadata g.2) "source_name_ch1" "")
      as [s|]; [|done].
    simpl in E. injection E as <-. simpl.
    by rewrite fmap_app, <- app_assoc.
Qed.

Lemma build_dataset_inv (acc : string) (gse : GSE) (d : dataset_info) :
  build_dataset acc gse = Ok d →
  accession d = acc ∧
  metadata_first (metadata gse) "title" "Unknown" = Ok (title d) ∧
  metadata_first (metadata gse) "summary" "" = Ok (summary d) ∧
  metadata_first (metadata gse) "taxon" "Unknown" = Ok (organism d) ∧
  metadata_first (metadata gse) "platform_id" "Unknown" = Ok (platform d) ∧
  sample_id <$> samples d = (gsms gse).*1 ∧
  sample_metadata d = samples d ∧
  match methylation_matrices gse with
  | [] => methylation_data d = None
  | matrices => combine_methylation_data matrices = Ok (methylation_data d)
  end.
Proof.
  unfold build_dataset.
  destruct (metadata_first (metadata gse) "title" "Unknown") as [ti|]; [|done].
  destruct (metadata_first (metadata gse) "summary" "") as [su|]; [|done].
  destruct (metadata_first (metadata gse) "taxon" "Unknown") as [og|]; [|done].
  destruct (metadata_first (metadata gse) "platform_id" "Unknown") as [pl|];
    [|done].
  cbn -[combine_methylation_data].
  destruct (for_each sample_step ([], []) (gsms gse)) as [st|] eqn:E;
    [|done].
  cbn -[combine_methylation_data]. pose proof (sample_step_ids _ _ _ E) as Hids.
  apply sample_step_matrices in E as [Hm _]. simpl in Hm, Hids.
  fold (methylation_matrices gse) in Hm. rewrite Hm.
  destruct (methylation_matrices gse) as [|m ms] eqn:Emm.
  - cbn. intros [= <-]. by repeat split.
  - destruct (combine_methylation_data (m :: ms)) as [md|] eqn:Ec;
      cbn -[combine_methylation_data]; [|done].
    intros [= <-]. by repeat split.
Qed.

(** X12. A record fetched from the remote repository mirrors the series:
    it carries the accession that was asked for, the first title, summary,
    taxon and platform id of the series (["Unknown"], or the empty string
    for the summary, when the series has no such entry), one sample per
    sample of the series, in the same order and under the same identifier,
    and as combined matrix what the combiner returns for the tables that
    passed the guard. *)
Theorem fetched_record_mirrors_series (cache_dir : string) (e : env)
    (files : gmap string file) (acc : string) (gse : GSE) (d : dataset_info) :
  (∀ d0, files !! cache_path cache_dir acc ≠ Some (Pickled d0)) →
  get_GEO e acc = Ok gse →
  returned (fetch_dataset cache_dir e files acc) = Some d →
  accession d = acc ∧
  title d = default "Unknown" (metadata gse !! "title" ≫= head) ∧
  summary d = default "" (metadata gse !! "summary" ≫= head) ∧
  organism d = default "Unknown" (metadata gse !! "taxon" ≫= head) ∧
  platform d = default "Unknown" (metadata gse !! "platform_id" ≫= head) ∧
  sample_id <$> samples d = (gsms gse).*1 ∧
  match methylation_matrices gse with
  | [] => methylation_data d = None
  | matrices => combine_methylation_data matrices = Ok (methylation_data d)
  end.
Proof.
  intros Hmiss Hgeo. rewrite fetch_cache_miss by done. rewrite Hgeo. simpl.
  destruct (build_dataset acc gse) as [d1|] eqn:E; [|done]. simpl.
  intros [= <-].
  destruct (build_dataset_inv _ _ _ E)
    as (Ha & Ht & Hs & Ho & Hp & Hids & _ & Hmd).
  assert (Hfirst : ∀ key dflt v,
            metadata_first (metadata gse) key dflt = Ok v →
            v = default dflt (metadata gse !! key ≫= head)).
  { intros key dflt v Hv. apply metadata_first_spec in Hv.
    by destruct (metadata gse !! key) as [[|x l]|]. }
  split; [done|]. split; [by apply Hfirst|]. split; [by apply Hfirst|].
  split; [by apply Hfirst|]. split; [by apply Hfirst|]. by split.
Qed.

Lemma fetched_record_mirrors_series_witness :
  let o := fetch_dataset "data/geo_cache" (world series_labelled WriteOk) ∅
             "GSE42861" in
  ∃ d, returned o = Some d ∧ accession d = "GSE42861" ∧
       title d = "Blood methylome" ∧ organism d = "Unknown" ∧
       sample_id <$> samples d = ["GSM1"; "GSM2"] ∧
       combine_methylation_data [labelled_table; labelled_table2]
       = Ok (methylation_data d).
Proof.
  intros o.
  destruct (returned o) as [d|] eqn:E; [|vm_compute in E; discriminate].
  exists d. split; [reflexivity|].
  destruct (fetched_record_mirrors_series "data/geo_cache"
              (world series_labelled WriteOk) ∅ "GSE42861" series_labelled d)
    as (Ha & Ht & _ & Ho & _ & Hs & Hm).
  - intros d0. rewrite lookup_empty. discriminate.
  - reflexivity.
  - exact E.
  - split; [exact Ha|]. split; [rewrite Ht; reflexivity|].
    split; [rewrite Ho; reflexivity|]. split; [rewrite Hs; reflexivity|].
    assert (Hl : methylation_matrices series_labelled
                 = [labelled_table; labelled_table2])
      by (vm_compute; reflexivity).
    rewrite Hl in Hm. exact Hm.
Defined.



Section fresh_records.
Context {F : PyFloat}.

Lemma all_cpg_sites_elem (geo_datasets : list (string * dataset_info))
    (c : string * gset scalar) :
  c ∈ all_cpg_sites geo_datasets →
  ∃ x data, x ∈ geo_datasets ∧ methylation_data x.2 = Some data ∧
            c = (x.1, cpg_sites data).
Proof.
  unfold all_cpg_sites. intros (x & Hx & Hc)%list_elem_of_omap.
  destruct (methylation_data x.2) as [data|] eqn:E; [|done].
  injection Hc as <-. by exists x, data.
Qed.


End fresh_records.


(** ** Collecting several datasets *)

Lemma string_length_app (a b : string) :
  String.length (a +:+ b) = String.length a + String.length b.
Proof. induction a as [|c a IH]; simpl; [done | by rewrite IH]. Qed.

Lemma string_app_inv_tail (a b s : string) : a +:+ s = b +:+ s → a = b.
Proof.
  revert b. induction a as [|c a IH]; intros b H.
  - destruct b as [|c' b]; [done|]. exfalso.
    apply (f_equal String.length) in H.
    rewrite !string_length_app in H. simpl in H. lia.
  - destruct b as [|c' b].
    + exfalso. apply (f_equal String.length) in H.
      rewrite !string_length_app in H. simpl in H. lia.
    + simpl in H. injection H as -> H. f_equal. by apply IH.
Qed.

Lemma cache_path_inj (cache_dir a b : string) :
  String.prefix "/" a = false → String.prefix "/" b = false →
  cache_path cache_dir a = cache_path cache_dir b → a = b.
Proof.
  intros Ha Hb. unfold cache_path, path_join.
  assert (Hpre : ∀ x, String.prefix "/" x = false →
            String.prefix "/" (x +:+ ".pkl") = false).
  { intros [|c x] Hx; [done|].
    change (String.prefix "/" (String c (x +:+ ".pkl")) = false).
    cbn [String.prefix] in *.
    destruct (Ascii.ascii_dec "/" c); [by destruct x | done]. }
  rewrite (Hpre a Ha), (Hpre b Hb).
  repeat case_decide; intros Heq.
  - by apply string_app_inv_tail in Heq.
  - apply (inj (String.app cache_dir)) in Heq.
    by apply string_app_inv_tail in Heq.
  - apply (inj (String.app cache_dir)) in Heq.
    apply (inj (String.app "/")) in Heq. by apply string_app_inv_tail in Heq.
Qed.

(** A fetch reads and writes the disk at its own cache path only. *)
Lemma fetch_local (cache_dir : string) (e : env)
    (files1 files2 : gmap string file) (acc : string) :
  files1 !! cache_path cache_dir acc = files2 !! cache_path cache_dir acc →
  returned (fetch_dataset cache_dir e files1 acc)
  = returned (fetch_dataset cache_dir e files2 acc) ∧
  remote_requests (fetch_dataset cache_dir e files1 acc)
  = remote_requests (fetch_dataset cache_dir e files2 acc).
Proof.
  intros H. unfold fetch_dataset. rewrite H.
  destruct (files2 !! cache_path cache_dir acc) as [[d|]|]; [done|..];
    by destruct (get_GEO e acc ≫= build_dataset acc).
Qed.

Lemma fetch_disk_elsewhere (cache_dir : string) (e : env)
    (files : gmap string file) (acc p : string) :
  p ≠ cache_path cache_dir acc →
  disk (fetch_dataset cache_dir e files acc) !! p = files !! p.
Proof.
  intros Hp. unfold fetch_dataset.
  destruct (files !! cache_path cache_dir acc) as [[d|]|]; [done|..];
    (destruct (get_GEO e acc ≫= build_dataset acc); [|done]);
    simpl; destruct (write e); simpl; by rewrite ?lookup_insert_ne.
Qed.

Lemma dict_set_fresh {A : Type} (k : string) (v : A) (d : list (string * A)) :
  k ∉ d.*1 → dict_set k v d = d ++ [(k, v)].
Proof.
  induction d as [|[k' v'] d IH]; simpl; [done|].
  intros [Hne Hk]%not_elem_of_cons. rewrite decide_False by done.
  by rewrite IH.
Qed.

Lemma assoc_dict_set {A : Type} (k k' : string) (v : A)
    (d : list (string * A)) :
  assoc k (dict_set k' v d) = if decide (k = k') then Some v else assoc k d.
Proof.
  induction d as [|[k0 v0] d IH]; simpl.
  - repeat case_decide; congruence.
  - repeat (case_decide; simpl); try congruence.
Qed.

Lemma dict_set_keys {A : Type} (k : string) (v : A) (d : list (string * A)) :
  NoDup d.*1 →
  NoDup (dict_set k v d).*1 ∧
  ∀ k', k' ∈ (dict_set k v d).*1 ↔ k' = k ∨ k' ∈ d.*1.
Proof.
  induction d as [|[k0 v0] d IH]; simpl.
  - intros _. split; [apply NoDup_singleton|]. intros k'.
    rewrite list_elem_of_singleton. split; [by left|].
    intros [?|?%elem_of_nil]; done.
  - intros [Hn Hd]%NoDup_cons. case_decide as Hk; simpl.
    + subst k0. split; [by apply NoDup_cons|]. intros k'.
      rewrite elem_of_cons. tauto.
    + destruct (IH Hd) as [IH1 IH2]. split.
      * apply NoDup_cons. split; [|done]. rewrite IH2.
        intros [?|?]; [congruence | done].
      * intros k'. rewrite !elem_of_cons, IH2. tauto.
Qed.

Lemma collect_loop_separate (cache_dir : string) (envs : nat → env)
    (files0 : gmap string file) (accs : list string) (k : nat)
    (datasets : list (string * dataset_info)) (files : gmap string file)
    (requests : nat) :
  NoDup accs →
  Forall (λ acc, String.prefix "/" acc = false) accs →
  (∀ acc, acc ∈ accs → acc ∉ datasets.*1) →
  (∀ acc, acc ∈ accs →
          files !! cache_path cache_dir acc
          = files0 !! cache_path cache_dir acc) →
  collected (collect_loop cache_dir envs k (entry_of <$> accs) datasets files
               requests)
  = Ok (datasets ++ separate_fetches cache_dir envs files0 k accs).
Proof.
  revert k datasets files requests.
  induction accs as [|acc accs IH]; intros k datasets files requests
    Hnd Hslash Hfresh Hfiles.
  - simpl. unfold separate_fetches. simpl. by rewrite app_nil_r.
  - apply NoDup_cons in Hnd as [Hnotin Hnd].
    apply Forall_cons in Hslash as [Hacc Hslash].
    simpl. unfold entry_of at 1. rewrite lookup_singleton_eq.
    destruct (fetch_local cache_dir (envs k) files files0 acc) as [Hret _];
      [apply Hfiles; left|].
    assert (Hfiles' : ∀ acc', acc' ∈ accs →
              disk (fetch_dataset cache_dir (envs k) files acc)
                !! cache_path cache_dir acc'
              = files0 !! cache_path cache_dir acc').
    { intros acc' Hin. rewrite fetch_disk_elsewhere.
      - apply Hfiles. by right.
      - intros Heq. apply cache_path_inj in Heq; [|
          by apply (proj1 (Forall_forall _ _) Hslash) | done].
        by subst acc'. }
    unfold separate_fetches. simpl. fold (separate_fetches cache_dir envs files0
                                           (S k) accs).
    rewrite Hret.
    destruct (returned (fetch_dataset cache_dir (envs k) files0 acc)) as [d|];
      simpl.
    + rewrite IH; [| done | done | | done].
      * rewrite dict_set_fresh by (apply Hfresh; left).
        by rewrite <- app_assoc.
      * intros acc' Hin. rewrite dict_set_fresh by (apply Hfresh; left).
        rewrite fmap_app. simpl. intros [?|Hin']%elem_of_app.
        -- by apply (Hfresh acc'); [right|].
        -- apply list_elem_of_singleton in Hin'. by subst acc'.
    + apply IH; [done | done | | done].
      intros acc' Hin. apply Hfresh. by right.
Qed.

(** X15. Datasets are collected independently of one another.  For a
    configuration that lists distinct accessions, none starting with a
    slash (so that no two share a cache file), [collect_datasets] returns
    exactly what [fetch_dataset] returns for each accession on its own
    against the initial disk, in the order of the configuration and with the
    failures left out: a failing accession neither stops the run nor
    changes what the others yield. *)
Theorem collect_is_separate_fetches (cache_dir : string) (envs : nat → env)
    (config : gmap string (list (gmap string string)))
    (files : gmap string file) (accs : list string) :
  config !! "datasets" = Some (entry_of <$> accs) →
  NoDup accs →
  Forall (λ acc, String.prefix "/" acc = false) accs →
  collected (collect_datasets cache_dir envs config files)
  = Ok (separate_fetches cache_dir envs files 0 accs).
Proof.
  intros Hc Hnd Hslash. unfold collect_datasets. rewrite Hc.
  rewrite (collect_loop_separate cache_dir envs files accs); try done.
  intros acc _ Hin. by apply elem_of_nil in Hin.
Qed.

Lemma collect_is_separate_fetches_witness :
  collected (collect_datasets "data/geo_cache" first_offline two_accessions ∅)
  = Ok (separate_fetches "data/geo_cache" first_offline ∅ 0
          ["GSE40279"; "GSE42861"]) ∧
  (separate_fetches "data/geo_cache" first_offline ∅ 0
     ["GSE40279"; "GSE42861"]).*1 = ["GSE42861"].
Proof.
  split; [|vm_compute; reflexivity].
  apply collect_is_separate_fetches.
  - reflexivity.
  - compute_done.
  - constructor; [reflexivity|]. constructor; [reflexivity|]. constructor.
Defined.

Lemma fetch_cases (cache_dir : string) (e : env) (files : gmap string file)
    (acc : string) :
  let o := fetch_dataset cache_dir e files acc in
  let path := cache_path cache_dir acc in
  (∃ d, files !! path = Some (Pickled d) ∧ returned o = Some d ∧
        disk o = files ∧ remote_requests o = 0) ∨
  ((∀ d, files !! path ≠ Some (Pickled d)) ∧ remote_requests o = 1 ∧
   ((∃ d, returned o = Some d ∧ disk o = write_cache (write e) path d files) ∨
    (returned o = None ∧ disk o = files))).
Proof.
  simpl. unfold fetch_dataset.
  destruct (files !! cache_path cache_dir acc) as [[d|]|] eqn:E.
  - left. by exists d.
  - right. split; [by intros d|].
    destruct (get_GEO e acc ≫= build_dataset acc) as [d|]; simpl;
      (split; [done|]); [left; by exists d | by right].
  - right. split; [by intros d|].
    destruct (get_GEO e acc ≫= build_dataset acc) as [d|]; simpl;
      (split; [done|]); [left; by exists d | by right].
Qed.

Lemma fetch_disk_pickled (cache_dir : string) (e : env)
    (files : gmap string file) (acc p : string) (d : dataset_info) :
  files !! p = Some (Pickled d) →
  disk (fetch_dataset cache_dir e files acc) !! p = Some (Pickled d).
Proof.
  intros Hp. destruct (fetch_cases cache_dir e files acc)
    as [(d0 & _ & _ & -> & _)|(Hmiss & _ & [(d0 & _ & ->)|[_ ->]])];
    [done| |done].
  assert (p ≠ cache_path cache_dir acc) by (intros ->; by apply (Hmiss d)).
  destruct (write e); simpl; by rewrite ?lookup_insert_ne.
Qed.

Lemma collect_loop_Ok_inv (cache_dir : string) (envs : nat → env) (k : nat)
    (cfgs : list (gmap string string))
    (datasets ds : list (string * dataset_info)) (files : gmap string file)
    (requests : nat) :
  collected (collect_loop cache_dir envs k cfgs datasets files requests)
  = Ok ds →
  NoDup datasets.*1 →
  Forall (λ cfg, is_Some (cfg !! "accession")) cfgs ∧
  NoDup ds.*1 ∧
  (∀ acc, acc ∈ ds.*1 →
          acc ∈ datasets.*1 ∨ ∃ cfg, cfg ∈ cfgs ∧ cfg !! "accession" = Some acc) ∧
  length ds ≤ length datasets + length cfgs ∧
  c_requests (collect_loop cache_dir envs k cfgs datasets files requests)
  ≤ requests + length cfgs.
Proof.
  revert k datasets files requests.
  induction cfgs as [|cfg cfgs IH]; intros k datasets files requests; simpl.
  - intros [= <-] Hnd. split; [done|]. split; [done|].
    split; [by left|]. lia.
  - destruct (cfg !! "accession") as [acc|] eqn:Ea; [|done].
    intros H Hnd.
    set (o := fetch_dataset cache_dir (envs k) files acc) in *.
    assert (Hreq : remote_requests o ≤ 1).
    { subst o. destruct (fetch_cases cache_dir (envs k) files acc)
        as [(? & _ & _ & _ & ->)|(_ & -> & _)]; lia. }
    destruct (returned o) as [d|].
    + destruct (dict_set_keys acc d datasets Hnd) as [Hnd' Hkeys].
      destruct (IH _ _ _ _ H Hnd') as (Hall & Hnd2 & Hin & Hlen & Hr).
      split; [by constructor|]. split; [done|]. split; [|split].
      * intros acc' Hacc'. destruct (Hin acc' Hacc') as [Hd|(c & Hc & Hcacc)].
        -- apply Hkeys in Hd as [->|?]; [|by left].
           right. exists cfg. split; [left | done].
        -- right. exists c. split; [by right | done].
      * assert (length (dict_set acc d datasets) ≤ S (length datasets)).
        { clear. induction datasets as [|[k0 v0] l IHl]; simpl; [lia|].
          case_decide; simpl; lia. }
        lia.
      * lia.
    + destruct (IH _ _ _ _ H Hnd) as (Hall & Hnd2 & Hin & Hlen & Hr).
      split; [by constructor|]. split; [done|]. split; [|split; lia].
      intros acc' Hacc'. destruct (Hin acc' Hacc') as [?|(c & Hc & Hcacc)];
        [by left|]. right. exists c. split; [by right | done].
Qed.

(** X16. A run of [collect_datasets] that returns has every accession of
    its result listed in the configuration, each once, and it has asked the
    remote repository at most once per configured entry. *)
Theorem collect_bounds (cache_dir : string) (envs : nat → env)
    (config : gmap string (list (gmap string string)))
    (files : gmap string file) (ds : list (string * dataset_info)) :
  collected (collect_datasets cache_dir envs config files) = Ok ds →
  ∃ cfgs, config !! "datasets" = Some cfgs ∧
    NoDup ds.*1 ∧
    (∀ acc, acc ∈ ds.*1 → ∃ cfg, cfg ∈ cfgs ∧ cfg !! "accession" = Some acc) ∧
    length ds ≤ length cfgs ∧
    c_requests (collect_datasets cache_dir envs config files) ≤ length cfgs.
Proof.
  unfold collect_datasets.
  destruct (config !! "datasets") as [cfgs|]; [|done].
  intros H. exists cfgs. split; [done|].
  destruct (collect_loop_Ok_inv _ _ _ _ _ _ _ _ H (NoDup_nil_2))
    as (_ & Hnd & Hin & Hlen & Hr).
  split; [done|]. split; [|split; [simpl in Hlen; lia | lia]].
  intros acc Hacc. destruct (Hin acc Hacc) as [Hnil|?]; [|done].
  by apply elem_of_nil in Hnil.
Qed.

Lemma collect_bounds_witness :
  let r := collect_datasets "data/geo_cache" first_offline two_accessions ∅ in
  ∃ ds cfgs, collected r = Ok ds ∧ two_accessions !! "datasets" = Some cfgs ∧
    NoDup ds.*1 ∧ length ds ≤ length cfgs ∧ c_requests r ≤ length cfgs.
Proof.
  cbv zeta.
  destruct (collected (collect_datasets "data/geo_cache" first_offline
                         two_accessions ∅)) as [ds|] eqn:E;
    [|vm_compute in E; discriminate].
  destruct (collect_bounds "data/geo_cache" first_offline two_accessions ∅
              ds E) as (cfgs & Hc & Hn & _ & Hl & Hr).
  exists ds, cfgs. split; [reflexivity|]. split; [exact Hc|].
  split; [exact Hn|]. split; [exact Hl | exact Hr].
Defined.

Lemma collect_loop_bad_entry (cache_dir : string) (envs : nat → env) (k : nat)
    (good rest : list (gmap string string)) (bad : gmap string string)
    (datasets : list (string * dataset_info)) (files : gmap string file)
    (requests : nat) :
  Forall (λ cfg, is_Some (cfg !! "accession")) good →
  bad !! "accession" = None →
  collect_loop cache_dir envs k (good ++ bad :: rest) datasets files requests
  = {| collected := Raise KeyError;
       c_disk := c_disk (collect_loop cache_dir envs k good datasets files
                           requests);
       c_requests := c_requests (collect_loop cache_dir envs k good datasets
                                   files requests) |}.
Proof.
  intros Hgood Hbad. revert k datasets files requests.
  induction Hgood as [|cfg good [acc Hacc] _ IH]; intros k datasets files
    requests; simpl.
  - by rewrite Hbad.
  - rewrite Hacc. apply IH.
Qed.

(** X17. Configuration errors surface late.  Without the key ['datasets']
    the run raises [KeyError] before any fetch; an entry without
    ['accession'] raises [KeyError] only when the loop reaches it: the
    entries before it have been fetched, and cached, exactly as in a run
    over those entries alone, the entries after it are not looked at, and
    the records collected so far are lost with the exception. *)
Theorem collect_config_errors (cache_dir : string) (envs : nat → env)
    (config : gmap string (list (gmap string string)))
    (files : gmap string file) :
  (config !! "datasets" = None →
   collect_datasets cache_dir envs config files
   = {| collected := Raise KeyError; c_disk := files; c_requests := 0 |}) ∧
  (∀ good bad rest,
     config !! "datasets" = Some (good ++ bad :: rest) →
     Forall (λ cfg, is_Some (cfg !! "accession")) good →
     bad !! "accession" = None →
     let before :=
       collect_datasets cache_dir envs (<["datasets" := good]> config) files in
     collect_datasets cache_dir envs config files
     = {| collected := Raise KeyError; c_disk := c_disk before;
          c_requests := c_requests before |}).
Proof.
  split.
  - intros Hc. unfold collect_datasets. by rewrite Hc.
  - intros good bad rest Hc Hgood Hbad. simpl. unfold collect_datasets.
    rewrite Hc, lookup_insert_eq. by apply collect_loop_bad_entry.
Qed.

Lemma collect_config_errors_witness :
  collect_datasets "data/geo_cache" first_offline ∅ ∅
  = {| collected := Raise KeyError; c_disk := ∅; c_requests := 0 |} ∧
  collected (collect_datasets "data/geo_cache" first_offline unnamed_entry ∅)
  = Raise KeyError ∧
  c_requests (collect_datasets "data/geo_cache" first_offline unnamed_entry ∅)
  = 1.
Proof.
  destruct (collect_config_errors "data/geo_cache" first_offline ∅ ∅)
    as [H0 _].
  split; [apply H0; reflexivity|].
  destruct (collect_config_errors "data/geo_cache" first_offline
              unnamed_entry ∅) as [_ H].
  rewrite (H [entry_of "GSE40279"] {[ "title" := "Blood" ]}
             [entry_of "GSE42861"]).
  - split; [reflexivity | vm_compute; reflexivity].
  - reflexivity.
  - constructor; [eexists; reflexivity | constructor].
  - reflexivity.
Defined.

Lemma collect_loop_caches (cache_dir : string) (envs : nat → env) (k : nat)
    (cfgs : list (gmap string string))
    (datasets ds : list (string * dataset_info)) (files : gmap string file)
    (requests : nat) :
  (∀ k, write (envs k) = WriteOk) →
  all_cached cache_dir datasets files →
  collected (collect_loop cache_dir envs k cfgs datasets files requests)
  = Ok ds →
  all_cached cache_dir ds
    (c_disk (collect_loop cache_dir envs k cfgs datasets files requests)).
Proof.
  intros Hw. revert k datasets files requests.
  induction cfgs as [|cfg cfgs IH]; intros k datasets files requests Hinv;
    simpl.
  - by intros [= <-].
  - destruct (cfg !! "accession") as [acc|]; [|done].
    apply IH. unfold all_cached in *.
    destruct (fetch_cases cache_dir (envs k) files acc)
      as [(d & Hhit & -> & -> & _)|(Hmiss & _ & [(d & -> & ->)|[-> ->]])];
      [| |done].
    + intros acc' d'. rewrite assoc_dict_set. case_decide as Heq.
      * subst acc'. by intros [= <-].
      * apply Hinv.
    + rewrite Hw. simpl. intros acc' d'. rewrite assoc_dict_set.
      case_decide as Heq.
      * subst acc'. intros [= <-]. apply lookup_insert_eq.
      * intros Ha. rewrite lookup_insert_ne; [by apply Hinv|].
        intros Hp. apply (Hmiss d'). rewrite Hp. by apply Hinv.
Qed.

Lemma collect_loop_warm (cache_dir : string) (envs : nat → env) (k : nat)
    (cfgs : list (gmap string string))
    (target datasets : list (string * dataset_info))
    (files : gmap string file) (requests : nat) :
  Forall (λ cfg, is_Some (cfg !! "accession")) cfgs →
  all_cached cache_dir target files →
  let o := collect_loop cache_dir envs k cfgs datasets files requests in
  ∃ ds, collected o = Ok ds ∧
    (∀ acc d, assoc acc target = Some d →
       (∃ cfg, cfg ∈ cfgs ∧ cfg !! "accession" = Some acc)
       ∨ assoc acc datasets = Some d →
       assoc acc ds = Some d) ∧
    ((∀ cfg acc, cfg ∈ cfgs → cfg !! "accession" = Some acc →
                 is_Some (assoc acc target)) →
     c_requests o = requests ∧ c_disk o = files).
Proof.
  intros Hall. revert k datasets files requests.
  induction Hall as [|cfg cfgs [acc Hacc] _ IH];
    intros k datasets files requests Hinv; simpl.
  - exists datasets. split; [done|]. split; [|done].
    intros acc d _ [(cfg & Hc & _)|?]; [by apply elem_of_nil in Hc | done].
  - rewrite Hacc.
    set (o1 := fetch_dataset cache_dir (envs k) files acc).
    assert (Hinv' : all_cached cache_dir target (disk o1)).
    { intros acc' d' Ha. apply fetch_disk_pickled. by apply Hinv. }
    destruct (IH (S k)
                match returned o1 with
                | Some dataset => dict_set acc dataset datasets
                | None => datasets
                end (disk o1) (requests + remote_requests o1) Hinv')
      as (ds & Hds & Hlook & Hwarm).
    exists ds. split; [done|]. split.
    + intros acc' d' Ht Hsrc. apply Hlook; [done|].
      destruct (decide (acc' = acc)) as [->|Hne].
      * right. subst o1. rewrite (fetch_cache_hit _ _ _ _ d') by by apply Hinv.
        simpl. rewrite assoc_dict_set. by rewrite decide_True.
      * destruct Hsrc as [(c & Hc & Hcacc)|Hd].
        -- left. exists c. split; [|done].
           apply elem_of_cons in Hc as [->|Hc]; [congruence | done].
        -- right. destruct (returned o1) as [d1|]; [|done].
           rewrite assoc_dict_set. by rewrite decide_False.
    + intros Hcfg. destruct Hwarm as [Hr Hd].
      { intros c a Hc Ha. apply (Hcfg c a); [by right | done]. }
      destruct (Hcfg cfg acc) as [d Hd']; [left | done |].
      assert (Ho1 : o1 = {| returned := Some d; disk := files;
                            remote_requests := 0 |}).
      { apply fetch_cache_hit. by apply Hinv. }
      rewrite Hr, Hd, Ho1. simpl. split; [lia | done].
Qed.

(** X18. A second run finds what the first run collected in the cache.
    When every cache write of a first run succeeds, a second run over the
    same configuration, started on the disk the first run left, returns for
    every accession collected before the very same record, whatever the
    remote repository answers now; and when the first run collected every
    configured accession, the second run asks the remote repository nothing
    and leaves the disk as it is. *)
Theorem collect_again_uses_cache (cache_dir : string) (envs1 envs2 : nat → env)
    (config : gmap string (list (gmap string string)))
    (files : gmap string file) (ds1 : list (string * dataset_info)) :
  (∀ k, write (envs1 k) = WriteOk) →
  collected (collect_datasets cache_dir envs1 config files) = Ok ds1 →
  let r1 := collect_datasets cache_dir envs1 config files in
  let r2 := collect_datasets cache_dir envs2 config (c_disk r1) in
  ∃ ds2, collected r2 = Ok ds2 ∧
    (∀ acc d, assoc acc ds1 = Some d → assoc acc ds2 = Some d) ∧
    ((∀ cfgs cfg acc, config !! "datasets" = Some cfgs → cfg ∈ cfgs →
                      cfg !! "accession" = Some acc →
                      is_Some (assoc acc ds1)) →
     c_requests r2 = 0 ∧ c_disk r2 = c_disk r1).
Proof.
  intros Hw H1. simpl. unfold collect_datasets in *.
  destruct (config !! "datasets") as [cfgs|] eqn:Ec; [|done].
  destruct (collect_loop_Ok_inv _ _ _ _ _ _ _ _ H1 (NoDup_nil_2))
    as (Hall & _ & Hin & _).
  assert (Hcached : all_cached cache_dir ds1
            (c_disk (collect_loop cache_dir envs1 0 cfgs [] files 0))).
  { apply (collect_loop_caches _ _ _ _ []); [done | | done].
    intros acc d Ha. discriminate. }
  destruct (collect_loop_warm cache_dir envs2 0 cfgs ds1 []
              (c_disk (collect_loop cache_dir envs1 0 cfgs [] files 0)) 0
              Hall Hcached) as (ds2 & Hds2 & Hlook & Hwarm).
  exists ds2. split; [done|]. split.
  - intros acc d Ha. apply Hlook; [done|]. left.
    destruct (Hin acc) as [Hnil|?]; [|by apply elem_of_nil in Hnil | done].
    apply assoc_Some_elem_of. by eauto.
  - intros Hcfg. apply Hwarm. intros cfg acc Hc Ha. by apply (Hcfg cfgs cfg).
Qed.

Lemma collect_again_uses_cache_witness :
  let r1 := collect_datasets "data/geo_cache"
              (λ _, world series_labelled WriteOk) two_accessions ∅ in
  let r2 := collect_datasets "data/geo_cache" (λ _, offline) two_accessions
              (c_disk r1) in
  ∃ ds1 ds2, collected r1 = Ok ds1 ∧ collected r2 = Ok ds2 ∧
    length ds1 = 2 ∧
    (∀ acc d, assoc acc ds1 = Some d → assoc acc ds2 = Some d) ∧
    c_requests r2 = 0.
Proof.
  cbv zeta.
  destruct (collected (collect_datasets "data/geo_cache"
                         (λ _, world series_labelled WriteOk)
                         two_accessions ∅)) as [ds1|] eqn:E;
    [|vm_compute in E; discriminate].
  destruct (collect_again_uses_cache "data/geo_cache"
              (λ _, world series_labelled WriteOk) (λ _, offline)
              two_accessions ∅ ds1 (λ _, eq_refl) E)
    as (ds2 & H2 & Hsame & Hcold).
  assert (Hds : ds1.*1 = ["GSE40279"; "GSE42861"]).
  { pose proof E as E'. vm_compute in E'. injection E' as <-.
    vm_compute. reflexivity. }
  exists ds1, ds2. split; [reflexivity|]. split; [exact H2|].
  split; [rewrite <- (length_fmap fst), Hds; reflexivity|].
  split; [exact Hsame|].
  apply Hcold. intros cfgs cfg acc Hc Hin Ha.
  assert (Hc' : two_accessions !! "datasets"
                = Some (entry_of <$> ["GSE40279"; "GSE42861"])) by reflexivity.
  rewrite Hc' in Hc. injection Hc as <-.
  apply assoc_Some_elem_of. rewrite Hds.
  clear E H2 Hsame Hcold Hds Hc'.
  apply elem_of_cons in Hin as [->|Hin];
    [|apply elem_of_cons in Hin as [->|Hin]; [|by apply elem_of_nil in Hin]];
    vm_compute in Ha; injection Ha as <-; compute_done.
Defined.

(** ** Sample characteristics *)

Lemma foldl_invariant {A B : Type} (P : B → Prop) (f : B → A → B) (l : list A)
    (b : B) :
  P b → (∀ b x, x ∈ l → P b → P (f b x)) → P (foldl f b l).
Proof.
  revert b. induction l as [|x l IH]; intros b Hb Hf; simpl; [done|].
  apply IH; [apply Hf; [left | done]|]. intros b' y Hy. apply Hf. by right.
Qed.

Lemma rstrip_cons (c : ascii) (s : string) :
  rstrip (String c s)
  = match rstrip s with
    | "" => if py_isspace c then "" else String c ""
    | r => String c r
    end.
Proof. reflexivity. Qed.

Lemma rstrip_idemp (s : string) : rstrip (rstrip s) = rstrip s.
Proof.
  induction s as [|c s IH]; [done|]. rewrite rstrip_cons.
  destruct (rstrip s) as [|c' r] eqn:E.
  - destruct (py_isspace c) eqn:Ec; [done|]. rewrite rstrip_cons. simpl.
    by rewrite Ec.
  - rewrite rstrip_cons, IH. done.
Qed.

Lemma lstrip_idemp (s : string) : lstrip (lstrip s) = lstrip s.
Proof.
  induction s as [|c s IH]; [done|]. simpl.
  destruct (py_isspace c) eqn:Ec; [done|]. simpl. by rewrite Ec.
Qed.

Lemma lstrip_rstrip (s : string) : lstrip s = s → lstrip (rstrip s) = rstrip s.
Proof.
  destruct s as [|c s]; [done|]. simpl lstrip at 1.
  destruct (py_isspace c) eqn:Ec.
  - intros H. exfalso. apply (f_equal String.length) in H. simpl in H.
    assert (Hle : ∀ t, String.length (lstrip t) ≤ String.length t).
    { clear. induction t as [|c' t IHt]; simpl; [lia|].
      destruct (py_isspace c'); simpl; lia. }
    specialize (Hle s). lia.
  - intros _. rewrite rstrip_cons.
    destruct (rstrip s); rewrite ?Ec; simpl; by rewrite Ec.
Qed.

Lemma strip_trimmed (s : string) : trimmed (strip s).
Proof.
  unfold trimmed, strip. split.
  - apply lstrip_rstrip, lstrip_idemp.
  - apply rstrip_idemp.
Qed.

Lemma strip_of_trimmed (s : string) : trimmed s → strip s = s.
Proof. intros [Hl Hr]. unfold strip. by rewrite Hl. Qed.

Lemma split_colon_app (k rest : string) :
  split_colon k = None → split_colon (k +:+ ":" +:+ rest) = Some (k, rest).
Proof.
  induction k as [|c k IH]; [done|]. simpl.
  case_decide; [done|].
  destruct (split_colon k) as [p|]; [done|]. intros _. by rewrite IH.
Qed.

(** X19. A characteristic written as [key: value] is read back as it was
    written: for a key without colon and a key and a value without white
    space at their ends, the loop body binds exactly the key to exactly the
    value, whatever colons the value itself contains. *)
Theorem characteristic_round_trip (field k v : string)
    (c : gmap string (option string)) :
  split_colon k = None → trimmed k → trimmed v →
  parse_value field (k +:+ ": " +:+ v) c = <[k := Some v]> c.
Proof.
  intros Hk Hkt Hvt. unfold parse_value.
  change (k +:+ ": " +:+ v) with (k +:+ ":" +:+ (String " " v)).
  rewrite split_colon_app by done.
  rewrite (strip_of_trimmed k Hkt).
  assert (strip (String " " v) = v) as ->; [|done].
  unfold strip. simpl. by apply strip_of_trimmed.
Qed.

Lemma characteristic_round_trip_witness :
  parse_value "characteristics_ch1" ("tissue" +:+ ": " +:+ "whole blood: EDTA")
              ∅
  = <["tissue" := Some "whole blood: EDTA"]> ∅.
Proof.
  apply characteristic_round_trip; [reflexivity | split; reflexivity..].
Defined.

Lemma direct_loop_notin (metadata : list (string * list string))
    (keys : list string) (c : gmap string (option string)) (k : string) :
  k ∉ keys →
  foldl (λ c key, match assoc key metadata with
                  | Some values => <[key := head values]> c
                  | None => c
                  end) c keys !! k = c !! k.
Proof.
  revert c. induction keys as [|key keys IH]; intros c Hk; simpl; [done|].
  apply not_elem_of_cons in Hk as [Hne Hk]. rewrite IH by done.
  destruct (assoc key metadata); [by rewrite lookup_insert_ne | done].
Qed.

Lemma direct_loop_lookup (metadata : list (string * list string))
    (keys : list string) (c : gmap string (option string)) (k : string)
    (values : list string) :
  NoDup keys → k ∈ keys → assoc k metadata = Some values →
  foldl (λ c key, match assoc key metadata with
                  | Some values => <[key := head values]> c
                  | None => c
                  end) c keys !! k = Some (head values).
Proof.
  revert c. induction keys as [|key keys IH]; intros c Hnd Hk Ha; simpl.
  - by apply elem_of_nil in Hk.
  - apply NoDup_cons in Hnd as [Hnotin Hnd].
    apply elem_of_cons in Hk as [->|Hk]; [|by apply IH].
    rewrite direct_loop_notin by done. rewrite Ha. apply lookup_insert_eq.
Qed.

(** X20. The five fields read directly from the metadata take precedence
    over anything parsed from the characteristics: when the metadata has
    one of [age], [gender], [tissue], [disease_state], [treatment], the
    result binds it to the first string of that field, or to [None] when the
    field is an empty list. *)
Theorem direct_fields_take_precedence (metadata : list (string * list string))
    (k : string) (values : list string) :
  k ∈ direct_fields → assoc k metadata = Some values →
  parse_characteristics metadata !! k = Some (head values).
Proof.
  intros Hk Ha. unfold parse_characteristics.
  apply direct_loop_lookup; [|done|done].
  unfold direct_fields. by compute_done.
Qed.

Lemma direct_fields_take_precedence_witness :
  parse_characteristics sample_metadata_items !! "age" = Some (Some "35").
Proof.
  apply (direct_fields_take_precedence sample_metadata_items "age" ["35"]);
    [compute_done | reflexivity].
Defined.

(** X21. Where the keys of the parsed characteristics come from.  Every
    binding of the result is either one of the five direct fields with the
    first string of that field, or it stems from a string of a field whose
    lower-cased name contains [characteristics]: a string with a colon gives
    the stripped text before the first colon as key, which has no white
    space at its ends, and the stripped rest as value; a string without
    colon is bound, whole, to the name of its field. *)
Theorem characteristics_provenance (metadata : list (string * list string))
    (k : string) (v : option string) :
  parse_characteristics metadata !! k = Some v →
  (k ∈ direct_fields ∧ ∃ values, assoc k metadata = Some values ∧
                                 v = head values) ∨
  (∃ field values value,
     assoc field metadata = Some values ∧ value ∈ values ∧
     contains "characteristics" (lower field) = true ∧
     ((split_colon value = None ∧ k = field ∧ v = Some value) ∨
      (∃ a b, split_colon value = Some (a, b) ∧ k = strip a ∧ trimmed k ∧
              v = Some (strip b)))).
Proof.
  set (parsed := λ (k : string) (v : option string),
         ∃ field values value,
           assoc field metadata = Some values ∧ value ∈ values ∧
           contains "characteristics" (lower field) = true ∧
           ((split_colon value = None ∧ k = field ∧ v = Some value) ∨
            (∃ a b, split_colon value = Some (a, b) ∧ k = strip a ∧
                    trimmed k ∧ v = Some (strip b)))).
  set (direct := λ (k : string) (v : option string),
         k ∈ direct_fields ∧ ∃ values, assoc k metadata = Some values ∧
                                       v = head values).
  revert k v. unfold parse_characteristics.
  apply (foldl_invariant
           (λ c : gmap string (option string),
              ∀ k v, c !! k = Some v → direct k v ∨ parsed k v)).
  - apply (foldl_invariant
             (λ c : gmap string (option string),
                ∀ k v, c !! k = Some v → direct k v ∨ parsed k v)).
    + intros k v Hk. by rewrite lookup_empty in Hk.
    + intros c field Hfield Hc.
      apply list_elem_of_filter in Hfield as [Hchar Hfield].
      destruct (assoc field metadata) as [values|] eqn:Ea; [|done]. simpl.
      apply foldl_invariant; [done|].
      intros c' value Hvalue Hc' k v. unfold parse_value.
      destruct (split_colon value) as [[a b]|] eqn:Es.
      * destruct (decide (strip a = k)) as [<-|Hne].
        -- rewrite lookup_insert_eq. intros [= <-]. right.
           exists field, values, value. repeat (split; [done|]). right.
           exists a, b. repeat (split; [done|]).
           split; [apply strip_trimmed | done].
        -- rewrite lookup_insert_ne by done. apply Hc'.
      * destruct (decide (field = k)) as [<-|Hne].
        -- rewrite lookup_insert_eq. intros [= <-]. right.
           exists field, values, value. repeat (split; [done|]). by left.
        -- rewrite lookup_insert_ne by done. apply Hc'.
  - intros c key Hkey Hc k v.
    destruct (assoc key metadata) as [values|] eqn:Ea; [|apply Hc].
    destruct (decide (key = k)) as [<-|Hne].
    + rewrite lookup_insert_eq. intros [= <-]. left. split; [done|].
      by exists values.
    + rewrite lookup_insert_ne by done. apply Hc.
Qed.

Lemma characteristics_provenance_witness :
  parse_characteristics sample_metadata_items !! "characteristics_ch1"
  = Some (Some "smoker") ∧
  ∃ field values value,
    assoc field sample_metadata_items = Some values ∧ value ∈ values ∧
    contains "characteristics" (lower field) = true.
Proof.
  assert (H : parse_characteristics sample_metadata_items
                !! "characteristics_ch1" = Some (Some "smoker"))
    by (vm_compute; reflexivity).
  split; [exact H|].
  destruct (characteristics_provenance sample_metadata_items
              "characteristics_ch1" (Some "smoker") H)
    as [[Hk _]|(f & vs & v & H1 & H2 & H3 & _)].
  - exfalso. revert Hk. compute_done.
  - exists f, vs, v. split; [exact H1|]. split; [exact H2 | exact H3].
Defined.

(** ** The table of identifiers *)

#[global] Instance more_present_total : Total more_present.
Proof. intros a b. unfold more_present. lia. Qed.

#[global] Instance more_present_trans : Transitive more_present.
Proof. intros a b c. unfold more_present. lia. Qed.

Lemma length_omap_le {A B : Type} (f : A → option B) (l : list A) :
  length (omap f l) ≤ length l.
Proof.
  induction l as [|x l IH]; [done|]. change (omap f (x :: l)) with
    (match f x with Some y => y :: omap f l | None => omap f l end).
  destruct (f x); simpl; lia.
Qed.

Lemma elem_of_present_in (datasets : list (string * dataset_info))
    (cpg : scalar) (acc : string) :
  acc ∈ present_in (all_cpg_sites datasets) cpg ↔
  ∃ d data, (acc, d) ∈ datasets ∧ methylation_data d = Some data ∧
            cpg ∈ index data.
Proof.
  unfold present_in. rewrite list_elem_of_fmap. split.
  - intros ([a s] & -> & [Hin Hc]%list_elem_of_filter). simpl in *.
    apply all_cpg_sites_elem in Hc as ([a' d] & data & Hx & Hmd & [= -> ->]).
    exists d, data. split; [done|]. split; [done|].
    by apply (elem_of_list_to_set (C := gset scalar)) in Hin.
  - intros (d & data & Hin & Hmd & Hc). exists (acc, cpg_sites data).
    split; [done|]. apply list_elem_of_filter. split.
    + simpl. by apply elem_of_list_to_set.
    + unfold all_cpg_sites. apply list_elem_of_omap. exists (acc, d).
      split; [done|]. simpl. by rewrite Hmd.
Qed.

(** X22. [extract_cpg_sites] raises [KeyError] when no dataset contributes
    an identifier.  Otherwise it returns one row per identifier of the union
    of the indexes of the combined matrices, each exactly once; the row of
    an identifier lists the accessions of the datasets whose matrix has it,
    counts them, so that the count is at least one and at most the number of
    datasets, and the rows come by non-increasing count. *)
Theorem cpg_site_table (datasets : list (string * dataset_info)) :
  NoDup datasets.*1 →
  let universe := all_cpgs (all_cpg_sites datasets) in
  (universe = ∅ → extract_cpg_sites datasets = Raise KeyError) ∧
  (universe ≠ ∅ →
   ∃ rows,
     extract_cpg_sites datasets = Ok rows ∧
     cpg_site <$> rows ≡ₚ elements universe ∧
     Sorted.StronglySorted more_present rows ∧
     ∀ r, r ∈ rows →
       present_in_datasets r = length (in_datasets r) ∧
       1 ≤ present_in_datasets r ≤ length datasets ∧
       ∀ acc, acc ∈ in_datasets r ↔
              ∃ d data, (acc, d) ∈ datasets ∧ methylation_data d = Some data ∧
                        cpg_site r ∈ index data).
Proof.
  intros _. simpl. unfold extract_cpg_sites, cpg_summary. split.
  - intros ->. by rewrite elements_empty.
  - intros Hne.
    destruct (elements (all_cpgs (all_cpg_sites datasets))) as [|x l] eqn:El.
    { by apply elements_empty_inv, leibniz_equiv in El. }
    rewrite <- El. clear x l El.
    set (row := λ cpg, {| cpg_site := cpg;
           present_in_datasets :=
             length (present_in (all_cpg_sites datasets) cpg);
           in_datasets := present_in (all_cpg_sites datasets) cpg |}).
    set (rows := row <$> elements (all_cpgs (all_cpg_sites datasets))).
    exists (sorting.merge_sort more_present rows).
    split; [|split; [|split]].
    + destruct rows eqn:E; [|done]. subst rows.
      apply fmap_nil_inv, elements_empty_inv, leibniz_equiv in E. done.
    + rewrite sorting.merge_sort_Permutation. subst rows.
      assert (Hid : ∀ l : list scalar, cpg_site <$> (row <$> l) = l).
      { intros l. induction l as [|x l IH]; [done|].
        rewrite !fmap_cons. by rewrite IH. }
      by rewrite Hid.
    + apply sorting.StronglySorted_merge_sort; apply _.
    + intros r Hr. rewrite sorting.merge_sort_Permutation in Hr. subst rows.
      apply list_elem_of_fmap in Hr as (cpg & -> & Hcpg). simpl.
      split; [done|]. split; [|apply elem_of_present_in].
      apply elem_of_elements, elem_of_all_cpgs in Hcpg as (d & Hd & Hin).
      unfold present_in. rewrite length_fmap. split.
      * assert (Hd' : d ∈ filter (λ d, cpg ∈ d.2) (all_cpg_sites datasets))
          by by apply list_elem_of_filter.
        destruct (filter _ _); [by apply elem_of_nil in Hd' | simpl; lia].
      * etrans; [apply length_filter|]. apply length_omap_le.
Qed.

Lemma cpg_site_table_witness :
  ∃ rows, extract_cpg_sites one_qualifying = Ok rows ∧
          cpg_site <$> rows
          ≡ₚ elements (all_cpgs (all_cpg_sites one_qualifying)) ∧
          ∀ r, r ∈ rows → 1 ≤ present_in_datasets r ≤ 2.
Proof.
  pose proof (cpg_site_table one_qualifying ltac:(compute_done)) as H.
  cbv zeta in H. destruct H as [_ H].
  destruct H as (rows & H1 & H2 & _ & H4).
  - intros He. apply (f_equal size) in He. vm_compute in He. discriminate.
  - exists rows. split; [exact H1|]. split; [exact H2|].
    intros r Hr. apply (H4 r Hr).
Defined.

(** ** Counts of the analysis *)

Lemma quality_notin (geo_datasets : list (string * dataset_info))
    (q0 : gmap string quality) (acc : string) :
  acc ∉ geo_datasets.*1 →
  foldl (λ q (d : string * dataset_info),
           match methylation_data d.2 with
           | Some data =>
               <[d.1 := {| n_cpg_sites := size (cpg_sites data);
                           n_samples := length (columns data) |}]> q
           | None => q
           end) q0 geo_datasets !! acc = q0 !! acc.
Proof.
  revert q0. induction geo_datasets as [|x l IH]; intros q0 Hn; simpl; [done|].
  rewrite fmap_cons in Hn. apply not_elem_of_cons in Hn as [Hne Hn].
  rewrite IH by done.
  destruct (methylation_data x.2); [by rewrite lookup_insert_ne | done].
Qed.

Lemma quality_lookup (geo_datasets : list (string * dataset_info))
    (q0 : gmap string quality) (acc : string) (d : dataset_info) :
  NoDup geo_datasets.*1 → (acc, d) ∈ geo_datasets →
  foldl (λ q (d : string * dataset_info),
           match methylation_data d.2 with
           | Some data =>
               <[d.1 := {| n_cpg_sites := size (cpg_sites data);
                           n_samples := length (columns data) |}]> q
           | None => q
           end) q0 geo_datasets !! acc
  = match methylation_data d with
    | Some data => Some {| n_cpg_sites := size (cpg_sites data);
                           n_samples := length (columns data) |}
    | None => q0 !! acc
    end.
Proof.
  revert q0. induction geo_datasets as [|x l IH]; intros q0 Hnd Hin; simpl.
  - by apply elem_of_nil in Hin.
  - rewrite fmap_cons in Hnd. apply NoDup_cons in Hnd as [Hnotin Hnd].
    apply elem_of_cons in Hin as [<-|Hin].
    + rewrite quality_notin by done. simpl.
      destruct (methylation_data d); [apply lookup_insert_eq | done].
    + rewrite IH by done. destruct (methylation_data d); [done|].
      destruct (methylation_data x.2); [|done].
      rewrite lookup_insert_ne; [done|]. intros Heq. apply Hnotin.
      rewrite Heq. apply list_elem_of_fmap. by exists (acc, d).
Qed.

Lemma foldl_add_samples (geo_datasets : list (string * dataset_info))
    (t : nat) :
  foldl (λ t (d : string * dataset_info), t + length (samples d.2)) t
        geo_datasets
  = t + sum_list ((λ d : string * dataset_info, length (samples d.2))
                    <$> geo_datasets).
Proof.
  revert t. induction geo_datasets as [|x l IH]; intros t; simpl; [lia|].
  rewrite IH. symmetry. apply Nat.add_assoc.
Qed.

Section analysis_counts.
Context {F : PyFloat}.

(** X23. What the analysis of a non-empty collection counts, when it
    returns: the number of datasets; the total number of samples; a quality
    entry, with the number of distinct row labels and the number of columns
    of the matrix, for exactly the datasets that have a matrix; and an
    overlap entry unless no dataset has a matrix. *)
Theorem analysis_counts_datasets (geo_datasets : list (string * dataset_info))
    (a : geo_analysis) :
  analyze_geo_data geo_datasets = Ok (Some a) →
  NoDup geo_datasets.*1 →
  total_datasets a = length geo_datasets ∧
  total_samples a
  = sum_list ((λ d : string * dataset_info, length (samples d.2))
                <$> geo_datasets) ∧
  (cpg_overlap a = None ↔
   ∀ x, x ∈ geo_datasets → methylation_data x.2 = None) ∧
  ∀ acc d, (acc, d) ∈ geo_datasets →
    data_quality a !! acc
    = (λ data, {| n_cpg_sites := size (cpg_sites data);
                  n_samples := length (columns data) |})
        <$> methylation_data d.
Proof.
  unfold analyze_geo_data. intros H Hnd.
  destruct geo_datasets as [|g l]; [done|].
  remember (g :: l) as geo eqn:Hgeo.
  assert (Hsites : all_cpg_sites geo = [] ↔
            ∀ x, x ∈ geo → methylation_data x.2 = None).
  { clear. unfold all_cpg_sites. induction geo as [|x l IH]; simpl.
    - split; [|done]. by intros _ x ?%elem_of_nil.
    - destruct (methylation_data x.2) eqn:E; simpl.
      + split; [done|]. intros Hall. specialize (Hall x (list_elem_of_here _ _)).
        congruence.
      + rewrite IH. split.
        * intros Hall y [->|?]%elem_of_cons; [done | by apply Hall].
        * intros Hall y ?. apply Hall. by right. }
  destruct (all_cpg_sites geo) as [|c cs] eqn:Es.
  - simpl in H. injection H as <-. simpl.
    split; [done|]. split; [by rewrite foldl_add_samples|].
    split; [by rewrite <- Hsites|].
    intros acc d Hin. unfold quality_of. rewrite (quality_lookup _ _ acc d) by done.
    by destruct (methylation_data d).
  - destruct (analyze_cpg_overlap (c :: cs)) as [r|]; [|done].
    simpl in H. injection H as <-. simpl.
    split; [done|]. split; [by rewrite foldl_add_samples|]. split.
    + split; [done|]. intros Hall. by apply Hsites in Hall.
    + intros acc d Hin. unfold quality_of.
      rewrite (quality_lookup _ _ acc d) by done.
      by destruct (methylation_data d).
Qed.

End analysis_counts.

Lemma analysis_counts_datasets_witness :
  ∃ a, analyze_geo_data (F := exact_float) one_qualifying = Ok (Some a) ∧
       total_datasets a = 2 ∧ total_samples a = 0 ∧
       cpg_overlap a ≠ None ∧
       data_quality a !! "GSE42861" = None ∧
       data_quality a !! "GSE40279"
       = Some {| n_cpg_sites := 2; n_samples := 1 |}.
Proof.
  assert (Hr : match analyze_geo_data (F := exact_float) one_qualifying with
               | Ok (Some _) => True
               | _ => False
               end) by (vm_compute; exact I).
  destruct (analyze_geo_data (F := exact_float) one_qualifying)
    as [[a|]|] eqn:E; [clear Hr | destruct Hr..].
  exists a. split; [reflexivity|].
  destruct (analysis_counts_datasets (F := exact_float) one_qualifying a E)
    as (Hn & Hs & Ho & Hq); [compute_done|].
  split; [exact Hn|]. split; [exact Hs|]. split; [|split].
  - intros Hnone.
    pose proof (proj1 Ho Hnone _
                  ltac:(apply elem_of_cons; left; reflexivity)) as Hall.
    discriminate.
  - rewrite (Hq "GSE42861" (record_of "GSE42861" None)); [reflexivity|].
    apply elem_of_cons. right. apply elem_of_cons. left; reflexivity.
  - rewrite (Hq "GSE40279" (record_of "GSE40279" (Some combined_frame)));
      [vm_compute; reflexivity|].
    apply elem_of_cons. left; reflexivity.
Defined.

Lemma tally_step_lookup (counts : gmap string nat) (k p : string) :
  default 0 (<[k := default 0 (counts !! k) + 1]> counts !! p)
  = default 0 (counts !! p) + (if decide (k = p) then 1 else 0).
Proof.
  case_decide as Hk.
  - subst. by rewrite lookup_insert_eq.
  - rewrite lookup_insert_ne by done. lia.
Qed.

Lemma tally_from (keys : list string) (counts : gmap string nat) (p : string) :
  default 0 (foldl (λ counts k, <[k := default 0 (counts !! k) + 1]> counts)
                   counts keys !! p)
  = default 0 (counts !! p) + length (filter (λ k, k = p) keys).
Proof.
  revert counts. induction keys as [|k keys IH]; intros counts; simpl; [lia|].
  rewrite IH, tally_step_lookup, filter_cons.
  case_decide; simpl; lia.
Qed.

Lemma tally_positive (keys : list string) (counts : gmap string nat)
    (p : string) (n : nat) :
  (∀ q m, counts !! q = Some m → 0 < m) →
  foldl (λ counts k, <[k := default 0 (counts !! k) + 1]> counts)
        counts keys !! p = Some n → 0 < n.
Proof.
  revert counts. induction keys as [|k keys IH]; intros counts Hpos; simpl.
  - apply Hpos.
  - apply IH. intros q m. destruct (decide (k = q)) as [->|Hne].
    + rewrite lookup_insert_eq. intros [= <-]. lia.
    + rewrite lookup_insert_ne by done. apply Hpos.
Qed.

Lemma sum_counts_step (counts : gmap string nat) (k : string) :
  sum_counts (<[k := default 0 (counts !! k) + 1]> counts)
  = sum_counts counts + 1.
Proof.
  unfold sum_counts.
  assert (Hcomm : ∀ (j1 j2 : string) (z1 z2 y : nat),
            z1 + (z2 + y) = z2 + (z1 + y)) by (intros; lia).
  destruct (counts !! k) as [n|] eqn:E; simpl.
  - rewrite <- (insert_delete_id counts k n E) at 2.
    rewrite <- (insert_delete_eq counts).
    rewrite !map_fold_insert_L;
      [lia | by intros; apply Hcomm | apply lookup_delete_eq |
       by intros; apply Hcomm | apply lookup_delete_eq].
  - rewrite map_fold_insert_L; [lia | by intros; apply Hcomm | done].
Qed.

(** X24. The platform tally of the analysis gives each platform the number
    of datasets that name it, leaves out the platforms no dataset names, and
    its counts add up to the number of datasets. *)
Theorem platform_tally (geo_datasets : list (string * dataset_info))
    (p : string) :
  let n := length (filter (λ d : string * dataset_info, platform d.2 = p)
                          geo_datasets) in
  platform_counts geo_datasets !! p = (if decide (n = 0) then None else Some n)
  ∧ sum_counts (platform_counts geo_datasets) = length geo_datasets.
Proof.
  simpl. unfold platform_counts, tally. split.
  - pose proof (tally_from ((λ d : string * dataset_info, platform d.2)
                              <$> geo_datasets) ∅ p) as Hc.
    rewrite lookup_empty in Hc. simpl in Hc.
    assert (Hlen : length (filter (λ k, k = p)
                     ((λ d : string * dataset_info, platform d.2)
                        <$> geo_datasets))
                   = length (filter (λ d : string * dataset_info,
                                       platform d.2 = p) geo_datasets)).
    { clear. induction geo_datasets as [|x l IH]; [done|].
      rewrite fmap_cons, !filter_cons. simpl.
      case_decide; simpl; by rewrite IH. }
    rewrite Hlen in Hc.
    destruct (foldl _ ∅ _ !! p) as [n|] eqn:E; simpl in Hc.
    + apply tally_positive in E; [|by intros q m; rewrite lookup_empty].
      case_decide; [lia | by rewrite Hc].
    + case_decide; [done | lia].
  - assert (Hsum : ∀ keys counts,
              sum_counts (foldl (λ counts k,
                  <[k := default 0 (counts !! k) + 1]> counts) counts keys)
              = sum_counts counts + length keys).
    { induction keys as [|k keys IH]; intros counts; simpl; [lia|].
      rewrite IH, sum_counts_step. lia. }
    rewrite Hsum, length_fmap. unfold sum_counts. by rewrite map_fold_empty.
Qed.

(** ** The analysis of the summary document *)

(** X25. The summary document that [collect_geo_data] writes cannot be
    analysed: each of its entries has the seven keys of the summary and no
    key ['samples'], which is the first thing [analyze_geo_data] reads of a
    dataset.  So on the document of a non-empty collection the analysis
    raises [KeyError], whatever it would do afterwards; only on the empty
    document does it return. *)
Theorem summary_document_not_analysable {R : Type}
    (rest : json → list (string * gmap string json) → result R) (empty : R)
    (datasets : list (string * dataset_info)) :
  (∀ acc doc, (acc, doc) ∈ summary_document datasets →
     dom doc = list_to_set ["accession"; "title"; "summary"; "organism";
                            "platform"; "n_samples"; "has_methylation_data"]) ∧
  analyze_loaded rest empty (summary_document datasets)
  = match datasets with
    | [] => Ok empty
    | _ => Raise KeyError
    end.
Proof.
  split.
  - intros acc doc Hin. unfold summary_document in Hin.
    apply list_elem_of_fmap in Hin as ([a e] & [= -> ->] & _).
    unfold summary_dict. simpl. rewrite !dom_insert_L, dom_empty_L.
    set_solver.
  - destruct datasets as [|[acc d] l]; [done|].
    unfold summary_document, json_datasets, analyze_loaded. simpl.
    unfold subscript, summary_dict. simpl.
    by rewrite !lookup_insert_ne, lookup_empty.
Qed.
